(** * Audio/text synchronisation player: reconciliation, tracking, layout, export

    A shallow embedding of the pure logic of the player:

    - [generateWordTimings] (services/geminiService.ts): validation of the
      alignment oracle's response;
    - [handleSubmit] (App): reconciliation of the timing list against the
      transcript into view elements;
    - [handleTimeUpdate] and [renderFrame] (App): the active word and the
      smoothed scroll position;
    - [exportProcess] (App): the right-to-left canvas layout pass and the
      life cycle of the exporting flag.

    Modelling conventions.  A JavaScript string is the list of its UTF-16
    code units.  String positions and array indices are integers in [Z],
    with [-1] for the "not found" result of [indexOf] and [findIndex].
    Other JavaScript numbers (times in seconds, pixel coordinates) are
    rationals in [Q]: arithmetic is exact, there is no rounding and no NaN. *)

From Stdlib Require Import ZArith List Bool Lia QArith Qabs Qround Lqa String Ascii.
Import ListNotations.

Local Open Scope Z_scope.

(** ** JavaScript strings *)

Module JSString.

Definition codeUnit := N.
Definition jsstring := list codeUnit.

(** ASCII literals, for examples. *)
Definition js (s : string) : jsstring := map N_of_ascii (list_ascii_of_string s).

(** [s.length] *)
Definition length (s : jsstring) : Z := Z.of_nat (List.length s).

(** A string is truthy when it is not empty. *)
Definition truthy (s : jsstring) : bool :=
  match s with [] => false | _ :: _ => true end.

Definition clamp (x lo hi : Z) : Z := Z.min (Z.max x lo) hi.

(** [s.substring(a, b)]: both ends are clamped to [0, s.length] and swapped
    when out of order. *)
Definition substring (s : jsstring) (a b : Z) : jsstring :=
  let len := length s in
  let finalStart := clamp a 0 len in
  let finalEnd := clamp b 0 len in
  let from := Z.min finalStart finalEnd in
  let to := Z.max finalStart finalEnd in
  firstn (Z.to_nat (to - from)) (skipn (Z.to_nat from) s).

(** [s.substring(a)]: the end defaults to [s.length]. *)
Definition substringFrom (s : jsstring) (a : Z) : jsstring :=
  substring s a (length s).

Fixpoint isPrefixOf (w s : jsstring) : bool :=
  match w, s with
  | [], _ => true
  | _ :: _, [] => false
  | a :: w', b :: s' => N.eqb a b && isPrefixOf w' s'
  end.

(** Scan for [w] in [s], where [s] is the part of the subject string that
    starts at position [i]. *)
Fixpoint searchFrom (w s : jsstring) (i : Z) : Z :=
  if isPrefixOf w s then i
  else match s with
       | [] => -1
       | _ :: s' => searchFrom w s' (i + 1)
       end.

(** [s.indexOf(w, position)]: the least [k >= clamp position] at which [w]
    occurs in [s], or [-1]. *)
Definition indexOf (s w : jsstring) (position : Z) : Z :=
  let start := clamp position 0 (length s) in
  searchFrom w (skipn (Z.to_nat start) s) start.

(** The string iterator ([for (const char of s)]) yields code points: a
    high surrogate followed by a low surrogate is one element. *)
Definition isHighSurrogate (c : codeUnit) : bool :=
  (N.leb 55296 c && N.leb c 56319)%N.
Definition isLowSurrogate (c : codeUnit) : bool :=
  (N.leb 56320 c && N.leb c 57343)%N.

Fixpoint codePoints (s : jsstring) : list jsstring :=
  match s with
  | [] => []
  | c :: s' =>
      match s' with
      | d :: s'' =>
          if isHighSurrogate c && isLowSurrogate d
          then [c; d] :: codePoints s''
          else [c] :: codePoints s'
      | [] => [[c]]
      end
  end.

Fixpoint eqb (a b : jsstring) : bool :=
  match a, b with
  | [], [] => true
  | x :: a', y :: b' => N.eqb x y && eqb a' b'
  | _, _ => false
  end.

End JSString.
Import JSString.

(** ** types.ts *)

Record WordTiming := mkWordTiming {
  word : jsstring;
  start : Q;
  end_ : Q
}.

(** [ViewElementWord] spreads the timing and adds [originalIndex]. *)
Inductive ViewElement :=
| ViewElementWord (timing : WordTiming) (originalIndex : Z)
| ViewElementWhitespace (content : jsstring).

(** ** handleSubmit: reconciliation of timings against the transcript *)

Section Reconcile.
Variable textInput : jsstring.

(** The body of [timings.forEach((timing, index) => ...)], on the pair of
    the mutable [newViewElements] and [textCursor]. *)
Definition forEachBody (st : list ViewElement * Z) (timing : WordTiming) (index : Z)
  : list ViewElement * Z :=
  let '(newViewElements, textCursor) := st in
  let wordStartIndex := indexOf textInput (word timing) textCursor in
  if wordStartIndex =? -1 then
    (newViewElements ++ [ViewElementWord timing index], textCursor)
  else
    let whitespaceContent := substring textInput textCursor wordStartIndex in
    let newViewElements :=
      if truthy whitespaceContent
      then newViewElements ++ [ViewElementWhitespace whitespaceContent]
      else newViewElements in
    (newViewElements ++ [ViewElementWord timing index],
     wordStartIndex + length (word timing)).

Fixpoint forEach (timings : list WordTiming) (index : Z) (st : list ViewElement * Z)
  : list ViewElement * Z :=
  match timings with
  | [] => st
  | timing :: rest => forEach rest (index + 1) (forEachBody st timing index)
  end.

(** The value passed to [setViewElements]. *)
Definition newViewElements (timings : list WordTiming) : list ViewElement :=
  let '(elements, textCursor) := forEach timings 0 ([], 0) in
  let remainingWhitespace := substringFrom textInput textCursor in
  if truthy remainingWhitespace
  then elements ++ [ViewElementWhitespace remainingWhitespace]
  else elements.

(** Every timing's word is found at or after the running cursor. *)
Fixpoint foundInSequence (timings : list WordTiming) (textCursor : Z) : Prop :=
  match timings with
  | [] => True
  | timing :: rest =>
      let wordStartIndex := indexOf textInput (word timing) textCursor in
      wordStartIndex <> -1 /\
      foundInSequence rest (wordStartIndex + length (word timing))
  end.
End Reconcile.

(** The text a segment stands for. *)
Definition segmentContent (e : ViewElement) : jsstring :=
  match e with
  | ViewElementWord timing _ => word timing
  | ViewElementWhitespace content => content
  end.

Definition concatContents (es : list ViewElement) : jsstring :=
  List.concat (map segmentContent es).

(** The word elements of a list of view elements, in order, each with its
    [originalIndex]. *)
Fixpoint wordElements (es : list ViewElement) : list (WordTiming * Z) :=
  match es with
  | [] => []
  | ViewElementWord timing index :: rest => (timing, index) :: wordElements rest
  | ViewElementWhitespace _ :: rest => wordElements rest
  end.

(** The timings paired with their positions, counted from [index]. *)
Fixpoint indexedFrom (timings : list WordTiming) (index : Z) : list (WordTiming * Z) :=
  match timings with
  | [] => []
  | timing :: rest => (timing, index) :: indexedFrom rest (index + 1)
  end.

(** ** Numbers: the comparisons the code uses *)

Local Open Scope Q_scope.

(** [x < y] *)
Definition Qltb (x y : Q) : bool := negb (Qle_bool y x).

(** [Math.max] and [Math.min] *)
Definition Math_max (x y : Q) : Q := if Qltb x y then y else x.
Definition Math_min (x y : Q) : Q := if Qltb y x then y else x.

(** ** Playback position: handleTimeUpdate and renderFrame *)

(** [array.findIndex(p)]: the index of the first element that satisfies [p],
    or [-1]. *)
Fixpoint findIndexFrom {A : Type} (p : A -> bool) (l : list A) (i : Z) : Z :=
  match l with
  | [] => (-1)%Z
  | a :: rest => if p a then i else findIndexFrom p rest (i + 1)%Z
  end.

Definition findIndex {A : Type} (p : A -> bool) (l : list A) : Z :=
  findIndexFrom p l 0%Z.

(** [currentTime >= timing.start && currentTime < timing.end] *)
Definition isActive (currentTime : Q) (timing : WordTiming) : bool :=
  Qle_bool (start timing) currentTime && Qltb currentTime (end_ timing).

(** [wordTimings.findIndex(t => currentTime >= t.start && currentTime < t.end)],
    as both [handleTimeUpdate] and [renderFrame] compute it. *)
Definition activeIndex (currentTime : Q) (wordTimings : list WordTiming) : Z :=
  findIndex (isActive currentTime) wordTimings.

(** ** The component's state and the operations handlers perform on it *)

Record AudioElement := mkAudio {
  currentTime : Q
}.

Record AppState := mkApp {
  wordTimings : list WordTiming;
  isPlaying : bool;
  isExporting : bool;
  activeWordIndex : Z;
  error : option string
}.

(** What a handler does, in program order: state setters and calls on the
    audio element, the recorder and the animation scheduler. *)
Inductive Effect :=
| SetIsExporting (b : bool)
| SetIsPlaying (b : bool)
| SetActiveWordIndex (i : Z)
| SetError (msg : string)
| AudioPause
| AudioPlay
| AudioSeekToZero
| AddSeekedListener
| AddEndedListener
| RemoveEndedListener
| CreateAudioGraph
| RecorderStart
| RecorderStop
| RequestAnimationFrame
| CancelAnimationFrame
| DownloadVideo
| DisconnectSource
| CloseAudioContext.

Definition applyEffect (s : AppState) (e : Effect) : AppState :=
  match e with
  | SetIsExporting b =>
      mkApp (wordTimings s) (isPlaying s) b (activeWordIndex s) (error s)
  | SetIsPlaying b =>
      mkApp (wordTimings s) b (isExporting s) (activeWordIndex s) (error s)
  | SetActiveWordIndex i =>
      mkApp (wordTimings s) (isPlaying s) (isExporting s) i (error s)
  | SetError msg =>
      mkApp (wordTimings s) (isPlaying s) (isExporting s) (activeWordIndex s) (Some msg)
  | _ => s
  end.

(** The state after a handler has run. *)
Definition run (effects : list Effect) (s : AppState) : AppState :=
  fold_left applyEffect effects s.

(** [audioRef.current] is [None] while no audio element is mounted. *)
Definition handleTimeUpdate (audioRef : option AudioElement) (s : AppState) : list Effect :=
  match audioRef with
  | None => []
  | Some audio =>
      let currentWordIndex := findIndex (isActive (currentTime audio)) (wordTimings s) in
      if negb (currentWordIndex =? -1)%Z
      then [SetActiveWordIndex currentWordIndex]
      else []
  end.

Definition handlePlaybackEnd : list Effect :=
  [SetIsPlaying false; SetActiveWordIndex (-1)].

Definition handleStop (audioRef : option AudioElement) : list Effect :=
  match audioRef with
  | None => []
  | Some _ => [AudioPause; AudioSeekToZero; SetIsPlaying false; SetActiveWordIndex (-1)]
  end.

(** ** Export: the life cycle of a session *)

Inductive RecorderState := inactive | recording.

(** [exportProcess], as far as the session is concerned: [ctx] tells whether
    [canvas.getContext('2d')] returned a context. *)
Definition exportProcess (ctx : bool) : list Effect :=
  if negb ctx then [SetIsExporting false]
  else [CreateAudioGraph; AddEndedListener; RecorderStart; AudioPlay;
        RequestAnimationFrame].

(** [handleExportVideo]: [ctx] is only consulted when [exportProcess] runs
    at once, that is when the audio is already at time zero. *)
Definition handleExportVideo (audioRef : option AudioElement) (ctx : bool)
    (s : AppState) : list Effect :=
  match audioRef with
  | None => []
  | Some audioEl =>
      if match wordTimings s with [] => true | _ :: _ => false end
         || isExporting s
      then []
      else
        [SetIsExporting true; AudioPause; SetIsPlaying false; SetActiveWordIndex (-1)]
        ++ (if Qeq_bool (currentTime audioEl) 0
            then exportProcess ctx
            else [AddSeekedListener; AudioSeekToZero])
  end.

(** The one-shot [seeked] listener is [exportProcess] itself. *)
Definition onSeeked (ctx : bool) : list Effect := exportProcess ctx.

(** [recorder.onstop] *)
Definition recorder_onstop (audioRef : option AudioElement) : list Effect :=
  [CancelAnimationFrame; DownloadVideo; SetIsExporting false; DisconnectSource;
   CloseAudioContext] ++ handleStop audioRef.

(** The rejection handler of [audioEl.play()]. *)
Definition play_catch (recorderState : RecorderState) : list Effect :=
  (match recorderState with recording => [RecorderStop] | inactive => [] end)
  ++ [SetError "Could not start audio playback for recording."; SetIsExporting false].

(** [onAudioEnded] *)
Definition onAudioEnded (recorderState : RecorderState) : list Effect :=
  (match recorderState with recording => [RecorderStop] | inactive => [] end)
  ++ [RemoveEndedListener].

(** ** exportProcess: the canvas layout pass *)

Definition FONT_SIZE : Q := 48.
Definition PADDING : Q := 60.
Definition LINE_HEIGHT : Q := FONT_SIZE * 1.8.
Definition canvas_width : Q := 1920.
Definition canvas_height : Q := 1080.

Record CanvasLayout := mkLayout {
  layout_word : jsstring;
  x : Q;
  y : Q;
  width : Q;
  originalIndex : Z
}.

Record LayoutState := mkLayoutState {
  wordLayouts : list CanvasLayout;
  currentX : Q;
  currentY : Q
}.

Section Layout.
(** [ctx.measureText(text).width] for the font of the export canvas. *)
Variable measureText : jsstring -> Q.

(** The body of [for (const char of element.content)]. *)
Definition layoutChar (st : LayoutState) (char : jsstring) : LayoutState :=
  if JSString.eqb char [10%N] then
    mkLayoutState (wordLayouts st) (canvas_width - PADDING) (currentY st + LINE_HEIGHT)
  else
    let spaceMetrics := measureText char in
    if Qltb (currentX st - spaceMetrics) PADDING then
      mkLayoutState (wordLayouts st) (canvas_width - PADDING) (currentY st + LINE_HEIGHT)
    else
      mkLayoutState (wordLayouts st) (currentX st - spaceMetrics) (currentY st).

(** The body of [viewElements.forEach(element => ...)]. *)
Definition layoutElement (st : LayoutState) (element : ViewElement) : LayoutState :=
  match element with
  | ViewElementWord timing index =>
      let metrics := measureText (word timing) in
      let st :=
        if Qltb (currentX st - metrics) PADDING
        then mkLayoutState (wordLayouts st) (canvas_width - PADDING)
                           (currentY st + LINE_HEIGHT)
        else st in
      mkLayoutState
        (wordLayouts st ++ [mkLayout (word timing) (currentX st) (currentY st) metrics index])
        (currentX st - metrics) (currentY st)
  | ViewElementWhitespace content =>
      fold_left layoutChar (codePoints content) st
  end.

Definition layout (viewElements : list ViewElement) : LayoutState :=
  fold_left layoutElement viewElements
    (mkLayoutState [] (canvas_width - PADDING) (PADDING + FONT_SIZE)).

(** [Math.max(...wordLayouts.map(l => l.y))] on a non-empty list. *)
Definition maxY (first : CanvasLayout) (rest : list CanvasLayout) : Q :=
  fold_left (fun m l => Math_max m (y l)) rest (y first).

Definition totalTextHeight (layouts : list CanvasLayout) : Q :=
  let lastLineY := match layouts with
                   | [] => 0
                   | first :: rest => maxY first rest
                   end in
  lastLineY + PADDING.
End Layout.

(** ** renderFrame: the scroll position *)

Definition LERP_FACTOR : Q := 0.08.

Record ScrollState := mkScroll {
  currentScrollY : Q;
  targetScrollY : Q
}.

(** Lines "Smoothly interpolate" and "Snap to target" of [renderFrame]. *)
Definition smooth (targetScrollY currentScrollY : Q) : Q :=
  let currentScrollY := currentScrollY + (targetScrollY - currentScrollY) * LERP_FACTOR in
  if Qltb (Qabs (targetScrollY - currentScrollY)) 0.5 then targetScrollY
  else currentScrollY.

(** The block "Calculate vertical scroll to center the active line" of
    [renderFrame], on the two variables it updates. *)
Definition scrollStep (layouts : list CanvasLayout) (totalTextHeight : Q)
    (activeIndex : Z) (st : ScrollState) : ScrollState :=
  if Qltb canvas_height totalTextHeight then
    let activeLayout := find (fun l => (originalIndex l =? activeIndex)%Z) layouts in
    let targetScrollY :=
      match activeLayout with
      | Some l => y l - canvas_height / 2
      | None => targetScrollY st
      end in
    let maxScrollTop := totalTextHeight - canvas_height in
    let targetScrollY := Math_max 0 (Math_min targetScrollY maxScrollTop) in
    mkScroll (smooth targetScrollY (currentScrollY st)) targetScrollY
  else st.

(** What [renderFrame] does to [currentScrollY] and [targetScrollY]; [time]
    is [audioEl.currentTime] at this frame. *)
Definition renderFrame (timings : list WordTiming) (layouts : list CanvasLayout)
    (totalTextHeight : Q) (time : Q) (st : ScrollState) : ScrollState :=
  let activeIndex := findIndex (isActive time) timings in
  scrollStep layouts totalTextHeight activeIndex st.

(** Consecutive frames, drawn at the playback times [times]. *)
Definition renderFrames (timings : list WordTiming) (layouts : list CanvasLayout)
    (totalTextHeight : Q) (times : list Q) (st : ScrollState) : ScrollState :=
  fold_left (fun st time => renderFrame timings layouts totalTextHeight time st) times st.

Local Close Scope Q_scope.

(** ** geminiService.ts: generateWordTimings *)

#[warnings="-register-all"]
Inductive JSON :=
| JNull
| JBool (b : bool)
| JNumber (q : Q)
| JString (s : jsstring)
| JArray (items : list JSON)
| JObject (fields : list (jsstring * JSON)).

Inductive result (A : Type) :=
| Ok (a : A)
| Throw (msg : string).
Arguments Ok {A} a.
Arguments Throw {A} msg.

Definition hasKey (fields : list (jsstring * JSON)) (key : jsstring) : bool :=
  existsb (fun kv => JSString.eqb (fst kv) key) fields.

(** [v.hasOwnProperty(key)] for the keys ['word'], ['start'] and ['end'].
    An object has the keys it lists; when one of them is named
    [hasOwnProperty] it hides the method, and calling a JSON value throws a
    TypeError.  [null] has no methods, so the call throws as well.  Arrays,
    strings, numbers and booleans own none of the three keys. *)
Definition hasOwnProperty (v : JSON) (key : jsstring) : result bool :=
  match v with
  | JNull => Throw "TypeError"
  | JObject fields =>
      if hasKey fields (js "hasOwnProperty") then Throw "TypeError"
      else Ok (hasKey fields key)
  | _ => Ok false
  end.

(** The body of the [try] block once the oracle has answered: [response]
    is [None] when the call rejects or [JSON.parse] throws, and the parsed
    value otherwise. *)
Definition tryBody (response : option JSON) : result (list JSON) :=
  match response with
  | None => Throw "rejected or unparseable"
  | Some (JArray timings) =>
      match timings with
      | [] => Ok timings
      | first :: _ =>
          match hasOwnProperty first (js "word") with
          | Throw m => Throw m
          | Ok false => Throw "API response is missing required fields in timing objects."
          | Ok true =>
          match hasOwnProperty first (js "start") with
          | Throw m => Throw m
          | Ok false => Throw "API response is missing required fields in timing objects."
          | Ok true =>
          match hasOwnProperty first (js "end") with
          | Throw m => Throw m
          | Ok false => Throw "API response is missing required fields in timing objects."
          | Ok true => Ok timings
          end end end
      end
  | Some _ => Throw "API did not return a valid array for timings."
  end.

(** The [catch] block replaces every error by one message. *)
Definition generateWordTimings (response : option JSON) : result (list JSON) :=
  match tryBody response with
  | Ok timings => Ok timings
  | Throw _ => Throw "Failed to generate word timings from Gemini API."
  end.

(** A timing object with its three fields. *)
Definition hasAllFields (v : JSON) : bool :=
  match v with
  | JObject fields =>
      hasKey fields (js "word") && hasKey fields (js "start") && hasKey fields (js "end")
  | _ => false
  end.

(** An object with a field named [hasOwnProperty]. *)
Definition hidesHasOwnProperty (v : JSON) : bool :=
  match v with
  | JObject fields => hasKey fields (js "hasOwnProperty")
  | _ => false
  end.

(** A response is malformed when it is not an array, or when some element
    of the array misses one of the fields. *)
Definition malformed (v : JSON) : bool :=
  match v with
  | JArray timings => negb (forallb hasAllFields timings)
  | _ => true
  end.

(** ** Shapes of view element lists and of timing lists *)

(** [kept] is [es] with some of its word elements left out; whitespace
    elements are all kept, and so is the order. *)
Inductive withoutSomeWords : list ViewElement -> list ViewElement -> Prop :=
| withoutSomeWords_nil : withoutSomeWords [] []
| withoutSomeWords_keep e es kept :
    withoutSomeWords es kept -> withoutSomeWords (e :: es) (e :: kept)
| withoutSomeWords_drop timing index es kept :
    withoutSomeWords es kept ->
    withoutSomeWords (ViewElementWord timing index :: es) kept.

Definition isWhitespaceElement (e : ViewElement) : bool :=
  match e with
  | ViewElementWhitespace _ => true
  | ViewElementWord _ _ => false
  end.

(** No whitespace element is empty, and no two of them are neighbours. *)
Fixpoint wellSeparated (es : list ViewElement) : bool :=
  match es with
  | [] => true
  | ViewElementWord _ _ :: rest => wellSeparated rest
  | ViewElementWhitespace content :: rest =>
      truthy content
      && match rest with
         | ViewElementWhitespace _ :: _ => false
         | _ => true
         end
      && wellSeparated rest
  end.

(** The list ends with a whitespace element. *)
Fixpoint endsWithWhitespace (es : list ViewElement) : bool :=
  match es with
  | [] => false
  | [e] => isWhitespaceElement e
  | _ :: rest => endsWithWhitespace rest
  end.

(** Timings in playback order: no interval ends before it starts, and each
    starts no earlier than the one before it ends. *)
Fixpoint sequential (timings : list WordTiming) : Prop :=
  match timings with
  | [] => True
  | t :: rest =>
      (start t <= end_ t)%Q /\
      match rest with
      | [] => True
      | next :: _ => (end_ t <= start next)%Q
      end /\
      sequential rest
  end.

(** ** renderFrame: what is painted *)

Inductive Color :=
| backgroundColor   (* '#f9fafb' *)
| highlightColor    (* 'rgba(253, 224, 71, 0.6)' *)
| activeTextColor   (* '#111827' *)
| inactiveTextColor (* '#374151' *).

(** The calls on the canvas context that paint or move the origin. *)
Inductive DrawCommand :=
| Save
| Restore
| Translate (dx dy : Q)
| FillRect (color : Color) (rx ry rw rh : Q)
| FillText (color : Color) (text : jsstring) (tx ty : Q).

(** The body of [wordLayouts.forEach((layout) => ...)] in [renderFrame]. *)
Definition drawWord (activeIndex : Z) (layout : CanvasLayout) : list DrawCommand :=
  if (originalIndex layout =? activeIndex)%Z then
    [FillRect highlightColor (x layout - width layout - 5)%Q
              (y layout - FONT_SIZE - 5)%Q (width layout + 10)%Q LINE_HEIGHT;
     FillText activeTextColor (layout_word layout) (x layout) (y layout)]
  else
    [FillText inactiveTextColor (layout_word layout) (x layout) (y layout)].

(** The canvas calls of one [renderFrame], in order; the translation uses
    the scroll position this frame has just computed. *)
Definition renderFrameDraw (timings : list WordTiming) (layouts : list CanvasLayout)
    (totalTextHeight : Q) (time : Q) (st : ScrollState) : list DrawCommand :=
  let activeIndex := findIndex (isActive time) timings in
  [FillRect backgroundColor 0 0 canvas_width canvas_height; Save]
  ++ (if Qltb canvas_height totalTextHeight
      then [Translate 0 (- currentScrollY (scrollStep layouts totalTextHeight activeIndex st))%Q]
      else [])
  ++ flat_map (drawWord activeIndex) layouts
  ++ [Restore].

(** The words a frame writes, in order, each with its colour. *)
Fixpoint drawnTexts (commands : list DrawCommand) : list (jsstring * Color) :=
  match commands with
  | [] => []
  | FillText color text _ _ :: rest => (text, color) :: drawnTexts rest
  | _ :: rest => drawnTexts rest
  end.

(** The highlight rectangles a frame fills. *)
Fixpoint highlightRects (commands : list DrawCommand) : list (Q * Q * Q * Q) :=
  match commands with
  | [] => []
  | FillRect highlightColor rx ry rw rh :: rest => (rx, ry, rw, rh) :: highlightRects rest
  | _ :: rest => highlightRects rest
  end.

(** ** components/TextViewer.tsx *)

(** What [viewElements.map] returns: a [span] for a word, with the
    highlight classes and the scroll [ref] when [active], and a fragment of
    text for whitespace. *)
Inductive Node :=
| Span (active : bool) (text : jsstring)
| Fragment (text : jsstring).

Definition TextViewer (viewElements : list ViewElement) (activeWordIndex : Z) : list Node :=
  map (fun element =>
         match element with
         | ViewElementWord timing index =>
             Span (index =? activeWordIndex)%Z (word timing)
         | ViewElementWhitespace content => Fragment content
         end)
      viewElements.

(** The text the nodes show. *)
Definition textContent (nodes : list Node) : jsstring :=
  List.concat (map (fun n => match n with Span _ text => text | Fragment text => text end)
                   nodes).

(** The texts of the highlighted spans. *)
Fixpoint activeSpans (nodes : list Node) : list jsstring :=
  match nodes with
  | [] => []
  | Span true text :: rest => text :: activeSpans rest
  | _ :: rest => activeSpans rest
  end.

(** ** More string methods: split and trim *)

(** [s.split(sep)] for a separator that is not empty.  [piece] holds, in
    reverse, the characters of the piece being read; [skip] counts the
    characters of a separator just matched that are still to be passed. *)
Fixpoint splitFrom (sep s piece : jsstring) (skip : nat) : list jsstring :=
  match s with
  | [] => [rev piece]
  | c :: s' =>
      match skip with
      | S k => splitFrom sep s' piece k
      | O =>
          if isPrefixOf sep s
          then rev piece :: splitFrom sep s' [] (List.length sep - 1)
          else splitFrom sep s' (c :: piece) 0
      end
  end.

Definition String_split (s sep : jsstring) : list jsstring := splitFrom sep s [] 0.

(** White space and line terminators, as [trim] removes them. *)
Definition isWhiteSpace (c : codeUnit) : bool :=
  existsb (N.eqb c)
    [9; 10; 11; 12; 13; 32; 160; 5760; 8232; 8233; 8239; 8287; 12288; 65279]%N
  || (N.leb 8192 c && N.leb c 8202).

Fixpoint trimStart (s : jsstring) : jsstring :=
  match s with
  | [] => []
  | c :: s' => if isWhiteSpace c then trimStart s' else s
  end.

Definition trimEnd (s : jsstring) : jsstring := rev (trimStart (rev s)).

(** [s.trim()] *)
Definition String_trim (s : jsstring) : jsstring := trimEnd (trimStart s).

(** ** fileToBase64 *)

(** A [File] is modelled by what the [FileReader] makes of it: the data URL
    it loads, or [None] when reading fails. *)
Definition File := option jsstring.

Record Base64File := mkBase64File {
  base64 : jsstring;
  mimeType : option jsstring   (* [undefined] when [mime] has no colon *)
}.

Definition fileToBase64 (file : File) : result Base64File :=
  match file with
  | None => Throw "reader error"
  | Some result =>
      let pieces := String_split result (js ";base64,") in
      let mime := nth_error pieces 0 in
      let data := nth_error pieces 1 in
      match mime, data with
      | Some mime, Some data =>
          if negb (truthy mime) || negb (truthy data)
          then Throw "Invalid file format."
          else Ok (mkBase64File data (nth_error (String_split mime (js ":")) 1))
      | _, _ => Throw "Invalid file format."
      end
  end.

(** ** handleSubmit as a whole *)

(** [type AppState = 'input' | 'loading' | 'ready' | 'error'] *)
Inductive AppStateTag := input_state | loading_state | ready_state | error_state.

(** The state of the component: the playback part above, and the input
    part. *)
Record Component := mkComponent {
  player : AppState;
  appState : AppStateTag;
  audioFile : option File;
  textInput : jsstring;
  viewElements : list ViewElement
}.

Definition setError (c : Component) (msg : option string) : Component :=
  mkComponent
    (mkApp (wordTimings (player c)) (isPlaying (player c)) (isExporting (player c))
           (activeWordIndex (player c)) msg)
    (appState c) (audioFile c) (textInput c) (viewElements c).

Definition setAppState (c : Component) (tag : AppStateTag) : Component :=
  mkComponent (player c) tag (audioFile c) (textInput c) (viewElements c).

Definition setWordTimings (c : Component) (timings : list WordTiming) : Component :=
  mkComponent
    (mkApp timings (isPlaying (player c)) (isExporting (player c))
           (activeWordIndex (player c)) (error (player c)))
    (appState c) (audioFile c) (textInput c) (viewElements c).

Definition setViewElements (c : Component) (es : list ViewElement) : Component :=
  mkComponent (player c) (appState c) (audioFile c) (textInput c) es.

(** [handleSubmit], once its awaits have settled.  [oracle] stands for the
    awaited [generateWordTimings(base64, mimeType, textInput)], typed as its
    signature says. *)
Definition handleSubmit
    (oracle : jsstring -> option jsstring -> jsstring -> result (list WordTiming))
    (c : Component) : Component :=
  match audioFile c with
  | None =>
      setError c (Some "Please provide both an audio file and the transcript text."%string)
  | Some file =>
      if negb (truthy (String_trim (textInput c))) then
        setError c (Some "Please provide both an audio file and the transcript text."%string)
      else
        let c := setError (setAppState c loading_state) None in
        let failed :=
          setAppState
            (setError c (Some "Failed to synchronize audio and text. The model may have been unable to process the request. Please try again with a clearer audio file or more accurate transcript."%string))
            error_state in
        match fileToBase64 file with
        | Throw _ => failed
        | Ok encoded =>
            match oracle (base64 encoded) (mimeType encoded) (textInput c) with
            | Throw _ => failed
            | Ok timings =>
                let c := setWordTimings c timings in
                let c := setViewElements c (newViewElements (textInput c) timings) in
                setAppState c ready_state
            end
        end
  end.

(** ** Export sessions as sequences of handlers *)

(** How often an effect occurs in what the handlers do. *)
Definition sameEffect (a b : Effect) : bool :=
  match a, b with
  | RecorderStart, RecorderStart => true
  | RecorderStop, RecorderStop => true
  | DownloadVideo, DownloadVideo => true
  | AudioPlay, AudioPlay => true
  | _, _ => false
  end.

Definition occurrences (e : Effect) (effects : list Effect) : nat :=
  List.length (filter (sameEffect e) effects).

(** * Properties *)

(** ** Strings *)

Lemma length_nonneg (s : jsstring) : 0 <= length s.
Proof. unfold length; lia. Qed.

Lemma truthy_false (s : jsstring) : truthy s = false -> s = [].
Proof. destruct s; [reflexivity | discriminate]. Qed.

Lemma eqb_eq (a b : jsstring) : JSString.eqb a b = true <-> a = b.
Proof.
  revert b; induction a as [|c a IH]; intros [|d b]; simpl;
    try (split; [discriminate | congruence]); try tauto.
  rewrite andb_true_iff, N.eqb_eq, IH. split.
  - intros [-> ->]; reflexivity.
  - intros E; injection E; auto.
Qed.

Lemma isPrefixOf_app (w s : jsstring) :
  isPrefixOf w s = true <-> exists post, s = w ++ post.
Proof.
  revert s; induction w as [|a w IH]; intros s; simpl.
  - split; [exists s; reflexivity | reflexivity].
  - destruct s as [|b s].
    + split; [discriminate | intros [post E]; discriminate].
    + rewrite andb_true_iff, N.eqb_eq, IH. split.
      * intros [-> [post ->]]; exists post; reflexivity.
      * intros [post E]; injection E as -> ->; split; [reflexivity | exists post; reflexivity].
Qed.

(** A successful scan returns a position at or after its starting point, at
    which the word occurs. *)
Lemma searchFrom_found (w : jsstring) :
  forall s i p,
    searchFrom w s i = p -> p <> -1 -> 0 <= i ->
    i <= p /\ p - i <= length s /\
    isPrefixOf w (skipn (Z.to_nat (p - i)) s) = true.
Proof.
  induction s as [|c s IH]; intros i p E NF Hi; simpl in E.
  - destruct (isPrefixOf w []) eqn:P; [|congruence].
    subst p; rewrite Z.sub_diag; simpl. unfold length; simpl. repeat split; try lia; assumption.
  - destruct (isPrefixOf w (c :: s)) eqn:P.
    + subst p; rewrite Z.sub_diag; simpl. repeat split; try lia; [apply length_nonneg | assumption].
    + destruct (IH (i + 1) p E NF ltac:(lia)) as (L & B & Q).
      replace (Z.to_nat (p - i)) with (S (Z.to_nat (p - (i + 1)))) by lia.
      simpl. unfold length in *; simpl List.length. repeat split; try lia; assumption.
Qed.

(** No occurrence lies between the starting point and the position found. *)
Lemma searchFrom_first (w : jsstring) :
  forall s i p k,
    searchFrom w s i = p -> p <> -1 -> 0 <= i -> i <= k < p ->
    isPrefixOf w (skipn (Z.to_nat (k - i)) s) = false.
Proof.
  induction s as [|c s IH]; intros i p k E NF Hi Hk; simpl in E.
  - destruct (isPrefixOf w []) eqn:P; [lia | congruence].
  - destruct (isPrefixOf w (c :: s)) eqn:P; [lia|].
    destruct (Z.eq_dec k i) as [->|Hne].
    + rewrite Z.sub_diag; simpl; assumption.
    + replace (Z.to_nat (k - i)) with (S (Z.to_nat (k - (i + 1)))) by lia.
      simpl. apply (IH (i + 1) p); try assumption; lia.
Qed.

(** A failed scan means the word occurs nowhere in the scanned part. *)
Lemma searchFrom_not_found (w : jsstring) :
  forall s i n, searchFrom w s i = -1 -> 0 <= i ->
    isPrefixOf w (skipn n s) = false.
Proof.
  induction s as [|c s IH]; intros i n E Hi; simpl in E.
  - destruct (isPrefixOf w []) eqn:P; [lia|]. destruct n; simpl; assumption.
  - destruct (isPrefixOf w (c :: s)) eqn:P; [lia|].
    destruct n; simpl; [assumption|]. apply (IH (i + 1)); [assumption | lia].
Qed.

Lemma skipn_skipn_add {A} (a b : nat) (l : list A) :
  skipn a (skipn b l) = skipn (b + a) l.
Proof.
  revert l; induction b as [|b IH]; intros l; simpl; [reflexivity|].
  destruct l; [destruct a; reflexivity | apply IH].
Qed.

(** [indexOf] when it finds the word: the position is at or after the
    (clamped) cursor, the word fits, and the word is what the string holds
    there. *)
Lemma indexOf_found (s w : jsstring) (c p : Z) :
  indexOf s w c = p -> p <> -1 ->
  clamp c 0 (length s) <= p /\ p + length w <= length s /\
  exists post, skipn (Z.to_nat p) s = w ++ post.
Proof.
  unfold indexOf. intros E NF.
  pose proof (length_nonneg s) as Hl.
  assert (Hc : 0 <= clamp c 0 (length s) <= length s) by (unfold clamp; lia).
  destruct (searchFrom_found w _ _ _ E NF (proj1 Hc)) as (L & B & P).
  rewrite skipn_skipn_add in P.
  replace (Z.to_nat (clamp c 0 (length s)) + Z.to_nat (p - clamp c 0 (length s)))%nat
    with (Z.to_nat p) in P by lia.
  apply isPrefixOf_app in P. destruct P as [post P].
  split; [assumption|]. split; [|exists post; exact P].
  assert (H : List.length (skipn (Z.to_nat p) s) = (List.length w + List.length post)%nat)
    by (rewrite P; apply List.length_app).
  rewrite List.length_skipn in H. unfold length in *.
  rewrite List.length_skipn in B. lia.
Qed.

Lemma substring_in_range (s : jsstring) (a b : Z) :
  0 <= a <= b -> b <= length s ->
  substring s a b = firstn (Z.to_nat (b - a)) (skipn (Z.to_nat a) s).
Proof.
  intros Ha Hb. unfold substring, clamp.
  replace (Z.min (Z.max a 0) (length s)) with a by lia.
  replace (Z.min (Z.max b 0) (length s)) with b by lia.
  replace (Z.min a b) with a by lia. replace (Z.max a b) with b by lia.
  reflexivity.
Qed.

Lemma firstn_app_substring (s : jsstring) (a b : Z) :
  0 <= a <= b -> b <= length s ->
  firstn (Z.to_nat a) s ++ substring s a b = firstn (Z.to_nat b) s.
Proof.
  intros Ha Hb. rewrite substring_in_range by assumption.
  replace (Z.to_nat b) with (Z.to_nat a + Z.to_nat (b - a))%nat by lia.
  rewrite <- (firstn_skipn (Z.to_nat a) s) at 3.
  rewrite firstn_app, firstn_firstn.
  assert (List.length (firstn (Z.to_nat a) s) = Z.to_nat a)
    by (apply firstn_length_le; unfold length in *; lia).
  replace (Init.Nat.min _ _) with (Z.to_nat a) by lia.
  f_equal. f_equal. lia.
Qed.

Lemma substringFrom_tail (s : jsstring) (a : Z) :
  0 <= a <= length s ->
  firstn (Z.to_nat a) s ++ substringFrom s a = s.
Proof.
  intros Ha. unfold substringFrom. rewrite firstn_app_substring by lia.
  apply firstn_all2. unfold length; lia.
Qed.

Lemma firstn_add_skipn {A} (a n : nat) (l : list A) :
  firstn (a + n) l = firstn a l ++ firstn n (skipn a l).
Proof.
  revert l; induction a as [|a IH]; intros l; simpl; [reflexivity|].
  destruct l as [|h l]; simpl.
  - destruct n; reflexivity.
  - f_equal; apply IH.
Qed.

Lemma firstn_extend_word (s w post : jsstring) (p : Z) :
  0 <= p -> skipn (Z.to_nat p) s = w ++ post ->
  firstn (Z.to_nat p) s ++ w = firstn (Z.to_nat (p + length w)) s.
Proof.
  intros Hp E. unfold length.
  replace (Z.to_nat (p + Z.of_nat (List.length w)))
    with (Z.to_nat p + List.length w)%nat by lia.
  rewrite firstn_add_skipn, E, firstn_app, Nat.sub_diag, firstn_all.
  simpl. rewrite app_nil_r. reflexivity.
Qed.

(** ** Reconciliation *)

Lemma concatContents_app (a b : list ViewElement) :
  concatContents (a ++ b) = concatContents a ++ concatContents b.
Proof. unfold concatContents. rewrite map_app, concat_app. reflexivity. Qed.

Lemma forEachBody_not_found (textInput : jsstring) es c timing index :
  indexOf textInput (word timing) c = -1 ->
  forEachBody textInput (es, c) timing index
  = (es ++ [ViewElementWord timing index], c).
Proof. intros E. unfold forEachBody. rewrite E. reflexivity. Qed.

Lemma forEachBody_found (textInput : jsstring) es c timing index :
  indexOf textInput (word timing) c <> -1 ->
  forEachBody textInput (es, c) timing index
  = ((if truthy (substring textInput c (indexOf textInput (word timing) c))
      then es ++ [ViewElementWhitespace
                    (substring textInput c (indexOf textInput (word timing) c))]
      else es) ++ [ViewElementWord timing index],
     indexOf textInput (word timing) c + length (word timing)).
Proof.
  intros NF. unfold forEachBody.
  destruct (Z.eqb_spec (indexOf textInput (word timing) c) (-1)); [contradiction|].
  reflexivity.
Qed.

Lemma forEach_app (textInput : jsstring) (pre post : list WordTiming) index st :
  forEach textInput (pre ++ post) index st
  = forEach textInput post (index + Z.of_nat (List.length pre))
      (forEach textInput pre index st).
Proof.
  revert index st; induction pre as [|t pre IH]; intros index st; simpl.
  - rewrite Z.add_0_r; reflexivity.
  - rewrite IH. f_equal. lia.
Qed.

(** One iteration that finds its word keeps the elements built so far equal,
    as text, to the transcript up to the cursor. *)
Lemma forEachBody_prefix (textInput : jsstring) es c timing index :
  0 <= c <= length textInput ->
  concatContents es = firstn (Z.to_nat c) textInput ->
  indexOf textInput (word timing) c <> -1 ->
  let st := forEachBody textInput (es, c) timing index in
  0 <= snd st <= length textInput /\
  concatContents (fst st) = firstn (Z.to_nat (snd st)) textInput.
Proof.
  intros Hc Inv NF. rewrite forEachBody_found by assumption. cbn [fst snd].
  remember (indexOf textInput (word timing) c) as p eqn:Ep. symmetry in Ep.
  destruct (indexOf_found _ _ _ _ Ep NF) as (L & B & post & P).
  assert (Hcl : clamp c 0 (length textInput) = c) by (unfold clamp; lia).
  rewrite Hcl in L. pose proof (length_nonneg (word timing)) as Hw.
  split; [lia|].
  rewrite concatContents_app.
  assert (W : concatContents [ViewElementWord timing index] = word timing)
    by (unfold concatContents; simpl; apply app_nil_r).
  rewrite W, <- (firstn_extend_word _ _ post) by (assumption || lia).
  f_equal.
  rewrite <- (firstn_app_substring textInput c p) by lia.
  destruct (truthy (substring textInput c p)) eqn:T.
  - rewrite concatContents_app, Inv. f_equal.
    unfold concatContents; simpl; apply app_nil_r.
  - rewrite (truthy_false _ T), app_nil_r. exact Inv.
Qed.

Lemma forEach_prefix (textInput : jsstring) (timings : list WordTiming) :
  forall index es c,
    0 <= c <= length textInput ->
    concatContents es = firstn (Z.to_nat c) textInput ->
    foundInSequence textInput timings c ->
    let st := forEach textInput timings index (es, c) in
    0 <= snd st <= length textInput /\
    concatContents (fst st) = firstn (Z.to_nat (snd st)) textInput.
Proof.
  induction timings as [|t ts IH]; intros index es c Hc Inv F.
  - split; assumption.
  - destruct F as [NF F]. cbn [forEach].
    pose proof (forEachBody_prefix textInput es c t index Hc Inv NF) as H.
    rewrite forEachBody_found in * by assumption. cbn [fst snd] in H.
    destruct H as [Hc' Inv']. apply IH; assumption.
Qed.

(** C1. Round trip: when every timing's word is found by in-order substring
    search at or after the running cursor, the contents of the view
    elements (the word of a word element, the content of a whitespace
    element), concatenated in order, are the transcript. *)
Theorem reconcile_round_trip (textInput : jsstring) (timings : list WordTiming) :
  foundInSequence textInput timings 0 ->
  concatContents (newViewElements textInput timings) = textInput.
Proof.
  intros F. unfold newViewElements.
  pose proof (length_nonneg textInput) as Hl.
  pose proof (forEach_prefix textInput timings 0 [] 0 ltac:(lia) eq_refl F) as H.
  destruct (forEach textInput timings 0 ([], 0)) as [es c]. cbn [fst snd] in H.
  destruct H as [Hc Inv].
  pose proof (substringFrom_tail textInput c Hc) as T.
  destruct (truthy (substringFrom textInput c)) eqn:E.
  - rewrite concatContents_app, Inv.
    unfold concatContents at 1; simpl. rewrite app_nil_r. exact T.
  - rewrite (truthy_false _ E), app_nil_r in T. congruence.
Qed.

Lemma reconcile_round_trip_witness :
  foundInSequence (js "the the")
    [mkWordTiming (js "the") 0 1; mkWordTiming (js "the") 1 2] 0 /\
  concatContents
    (newViewElements (js "the the")
       [mkWordTiming (js "the") 0 1; mkWordTiming (js "the") 1 2])
  = js "the the".
Proof.
  assert (F : foundInSequence (js "the the")
                [mkWordTiming (js "the") 0 1; mkWordTiming (js "the") 1 2] 0)
    by (vm_compute; repeat split; discriminate).
  split; [exact F | apply (reconcile_round_trip _ _ F)].
Defined.

(** The loop only ever appends to [newViewElements]. *)
Lemma forEach_extends (textInput : jsstring) (timings : list WordTiming) :
  forall index es c, exists added,
    fst (forEach textInput timings index (es, c)) = es ++ added.
Proof.
  induction timings as [|t ts IH]; intros index es c; cbn [forEach].
  - exists []. rewrite app_nil_r. reflexivity.
  - destruct (forEachBody textInput (es, c) t index) as [es' c'] eqn:B.
    destruct (IH (index + 1) es' c') as [added E]. rewrite E.
    unfold forEachBody in B.
    destruct (indexOf textInput (word t) c =? -1);
      [|destruct (truthy (substring textInput c (indexOf textInput (word t) c)))];
      injection B as <- <-; rewrite <- ?app_assoc; eexists; reflexivity.
Qed.

(** C4. A timing whose word is not found at or after the cursor adds a bare
    word element that carries the timing and its position in the timing
    list, with no whitespace element before it; the cursor stays where it
    was and the loop goes on with the timings that follow. *)
Theorem reconcile_word_not_found
    (textInput : jsstring) (pre post : list WordTiming) (timing : WordTiming)
    (es : list ViewElement) (c : Z) :
  forEach textInput pre 0 ([], 0) = (es, c) ->
  indexOf textInput (word timing) c = -1 ->
  let position := Z.of_nat (List.length pre) in
  forEachBody textInput (es, c) timing position
  = (es ++ [ViewElementWord timing position], c) /\
  forEach textInput (pre ++ timing :: post) 0 ([], 0)
  = forEach textInput post (position + 1)
      (es ++ [ViewElementWord timing position], c) /\
  exists rest,
    newViewElements textInput (pre ++ timing :: post)
    = es ++ ViewElementWord timing position :: rest.
Proof.
  intros Pre NF position.
  assert (B : forEachBody textInput (es, c) timing position
              = (es ++ [ViewElementWord timing position], c))
    by (apply forEachBody_not_found; assumption).
  assert (L : forEach textInput (pre ++ timing :: post) 0 ([], 0)
              = forEach textInput post (position + 1)
                  (es ++ [ViewElementWord timing position], c)).
  { rewrite forEach_app, Pre. cbn [forEach]. rewrite Z.add_0_l. fold position.
    rewrite B. reflexivity. }
  split; [exact B|]. split; [exact L|].
  unfold newViewElements. rewrite L.
  destruct (forEach_extends textInput post (position + 1)
              (es ++ [ViewElementWord timing position]) c) as [added E].
  destruct (forEach textInput post (position + 1)
              (es ++ [ViewElementWord timing position], c)) as [es' c'].
  cbn [fst] in E. subst es'.
  destruct (truthy (substringFrom textInput c'));
    rewrite <- ?app_assoc; simpl; eexists; reflexivity.
Qed.

Lemma reconcile_word_not_found_witness :
  newViewElements (js "a b")
    [mkWordTiming (js "a") 0 1; mkWordTiming (js "zzz") 1 2; mkWordTiming (js "b") 2 3]
  = [ViewElementWord (mkWordTiming (js "a") 0 1) 0;
     ViewElementWord (mkWordTiming (js "zzz") 1 2) 1;
     ViewElementWhitespace (js " ");
     ViewElementWord (mkWordTiming (js "b") 2 3) 2]
  /\ exists rest,
    newViewElements (js "a b")
      ([mkWordTiming (js "a") 0 1] ++ mkWordTiming (js "zzz") 1 2
         :: [mkWordTiming (js "b") 2 3])
    = [ViewElementWord (mkWordTiming (js "a") 0 1) 0]
      ++ ViewElementWord (mkWordTiming (js "zzz") 1 2) 1 :: rest.
Proof.
  split; [reflexivity|].
  apply (reconcile_word_not_found (js "a b") [mkWordTiming (js "a") 0 1]
           [mkWordTiming (js "b") 2 3] (mkWordTiming (js "zzz") 1 2)
           [ViewElementWord (mkWordTiming (js "a") 0 1) 0] 1);
    reflexivity.
Defined.

Lemma wordElements_app (a b : list ViewElement) :
  wordElements (a ++ b) = wordElements a ++ wordElements b.
Proof.
  induction a as [|[t i|ws] a IH]; simpl; [reflexivity | f_equal; exact IH | exact IH].
Qed.

Lemma forEach_wordElements (textInput : jsstring) (timings : list WordTiming) :
  forall index es c,
    wordElements (fst (forEach textInput timings index (es, c)))
    = wordElements es ++ indexedFrom timings index.
Proof.
  induction timings as [|t ts IH]; intros index es c; cbn [forEach indexedFrom].
  - rewrite app_nil_r. reflexivity.
  - destruct (forEachBody textInput (es, c) t index) as [es' c'] eqn:B.
    rewrite IH. unfold forEachBody in B.
    destruct (indexOf textInput (word t) c =? -1);
      [|destruct (truthy (substring textInput c (indexOf textInput (word t) c)))];
      injection B as <- <-; rewrite !wordElements_app; simpl;
      rewrite <- ?app_assoc; reflexivity.
Qed.

(** Found or not, every timing gives one word element; the word elements
    come in the order of the timings and each carries its position in the
    timing list as [originalIndex]. *)
Lemma newViewElements_words_in_order (textInput : jsstring) (timings : list WordTiming) :
  wordElements (newViewElements textInput timings) = indexedFrom timings 0.
Proof.
  unfold newViewElements.
  pose proof (forEach_wordElements textInput timings 0 [] 0) as H.
  destruct (forEach textInput timings 0 ([], 0)) as [es c]. cbn [fst] in H.
  destruct (truthy (substringFrom textInput c)); [|exact H].
  rewrite wordElements_app, H. simpl. apply app_nil_r.
Qed.

Lemma indexOf_first (s w : jsstring) (c p k : Z) :
  indexOf s w c = p -> p <> -1 -> clamp c 0 (length s) <= k < p ->
  isPrefixOf w (skipn (Z.to_nat k) s) = false.
Proof.
  unfold indexOf. intros E NF Hk.
  pose proof (length_nonneg s) as Hl.
  assert (Hc : 0 <= clamp c 0 (length s)) by (unfold clamp; lia).
  pose proof (searchFrom_first w _ _ _ k E NF Hc Hk) as P.
  rewrite skipn_skipn_add in P.
  replace (Z.to_nat (clamp c 0 (length s)) + Z.to_nat (k - clamp c 0 (length s)))%nat
    with (Z.to_nat k) in P by lia.
  exact P.
Qed.

(** [indexOf] answers [-1] only when the word occurs nowhere at or after the
    cursor. *)
Lemma indexOf_not_found (s w : jsstring) (c k : Z) :
  indexOf s w c = -1 -> clamp c 0 (length s) <= k ->
  isPrefixOf w (skipn (Z.to_nat k) s) = false.
Proof.
  unfold indexOf. intros E Hk.
  pose proof (length_nonneg s) as Hl.
  assert (Hc : 0 <= clamp c 0 (length s)) by (unfold clamp; lia).
  pose proof (searchFrom_not_found w _ _ (Z.to_nat (k - clamp c 0 (length s))) E Hc) as P.
  rewrite skipn_skipn_add in P.
  replace (Z.to_nat (clamp c 0 (length s)) + Z.to_nat (k - clamp c 0 (length s)))%nat
    with (Z.to_nat k) in P by lia.
  exact P.
Qed.

(** C5. Two successive timings for the same word: the first is bound at
    position [p], the cursor moves past that occurrence, and the second is
    bound at [q], the next occurrence of the word at or after the cursor,
    which lies strictly after [p]; the second word element follows the
    first, separated by the text between the two occurrences. *)
Theorem duplicate_word_binds_next_occurrence
    (textInput : jsstring) (t1 t2 : WordTiming) (es : list ViewElement)
    (c p q index : Z) :
  word t2 = word t1 -> word t1 <> [] ->
  indexOf textInput (word t1) c = p -> p <> -1 ->
  indexOf textInput (word t1) (p + length (word t1)) = q -> q <> -1 ->
  p < p + length (word t1) <= q /\
  isPrefixOf (word t1) (skipn (Z.to_nat p) textInput) = true /\
  isPrefixOf (word t1) (skipn (Z.to_nat q) textInput) = true /\
  (forall k, p + length (word t1) <= k < q ->
             isPrefixOf (word t1) (skipn (Z.to_nat k) textInput) = false) /\
  forEach textInput [t1; t2] index (es, c)
  = (fst (forEachBody textInput (es, c) t1 index)
       ++ (if truthy (substring textInput (p + length (word t1)) q)
           then [ViewElementWhitespace (substring textInput (p + length (word t1)) q)]
           else [])
       ++ [ViewElementWord t2 (index + 1)],
     q + length (word t1)).
Proof.
  intros W NE Ep NFp Eq NFq.
  destruct (indexOf_found _ _ _ _ Ep NFp) as (Lp & Bp & postp & Pp).
  destruct (indexOf_found _ _ _ _ Eq NFq) as (Lq & Bq & post & Pq).
  pose proof (length_nonneg textInput) as Hl.
  assert (Hw : 0 < length (word t1))
    by (destruct (word t1); [congruence | unfold length; simpl; lia]).
  assert (Hp : 0 <= p) by (unfold clamp in Lp; lia).
  assert (Hcl : clamp (p + length (word t1)) 0 (length textInput)
                = p + length (word t1)) by (unfold clamp; lia).
  rewrite Hcl in Lq.
  split; [lia|].
  split; [apply isPrefixOf_app; exists postp; exact Pp|].
  split; [apply isPrefixOf_app; exists post; exact Pq|].
  split.
  - intros k Hk. apply (indexOf_first _ _ _ _ _ Eq NFq). rewrite Hcl. exact Hk.
  - cbn [forEach].
    rewrite (forEachBody_found textInput es c t1) by (rewrite Ep; exact NFp).
    rewrite Ep. cbn [fst].
    rewrite forEachBody_found by (rewrite W, Eq; exact NFq).
    rewrite W, Eq.
    destruct (truthy (substring textInput (p + length (word t1)) q));
      rewrite <- ?app_assoc; reflexivity.
Qed.

Lemma duplicate_word_binds_next_occurrence_witness :
  indexOf (js "the the") (js "the") 0 = 0 /\
  indexOf (js "the the") (js "the") 3 = 4 /\
  forEach (js "the the")
    [mkWordTiming (js "the") 0 1; mkWordTiming (js "the") 1 2] 0 ([], 0)
  = ([ViewElementWord (mkWordTiming (js "the") 0 1) 0;
      ViewElementWhitespace (js " ");
      ViewElementWord (mkWordTiming (js "the") 1 2) 1], 7).
Proof.
  split; [reflexivity|]. split; [reflexivity|].
  pose proof (duplicate_word_binds_next_occurrence (js "the the")
                (mkWordTiming (js "the") 0 1) (mkWordTiming (js "the") 1 2)
                [] 0 0 4 0 eq_refl ltac:(discriminate)
                eq_refl ltac:(discriminate) eq_refl ltac:(discriminate))
    as (_ & _ & _ & _ & H).
  exact H.
Defined.

Example reconcile_the_the :
  newViewElements (js "the the")
    [mkWordTiming (js "the") 0 1; mkWordTiming (js "the") 1 2]
  = [ViewElementWord (mkWordTiming (js "the") 0 1) 0;
     ViewElementWhitespace (js " ");
     ViewElementWord (mkWordTiming (js "the") 1 2) 1].
Proof. reflexivity. Qed.

(** The transcript of two Arabic words separated by a space: the code units
    of U+0623 U+062D U+0645 U+062F, a space, and U+0630 U+0647 U+0628. *)
Example reconcile_two_arabic_words :
  let w1 := [1571; 1581; 1605; 1583]%N in
  let w2 := [1584; 1607; 1576]%N in
  newViewElements (w1 ++ [32%N] ++ w2) [mkWordTiming w1 0 1; mkWordTiming w2 1 2]
  = [ViewElementWord (mkWordTiming w1 0 1) 0;
     ViewElementWhitespace [32%N];
     ViewElementWord (mkWordTiming w2 1 2) 1].
Proof. reflexivity. Qed.

Lemma substringFrom_zero (s : jsstring) : substringFrom s 0 = s.
Proof.
  pose proof (substringFrom_tail s 0 ltac:(pose proof (length_nonneg s); lia)) as H.
  exact H.
Qed.

(** ** The alignment oracle's response *)

(** What [generateWordTimings] answers to a parsed response: only the first
    element of an array is looked at. *)
Lemma generateWordTimings_parsed (v : JSON) :
  generateWordTimings (Some v)
  = match v with
    | JArray [] => Ok []
    | JArray (first :: rest) =>
        if hasAllFields first && negb (hidesHasOwnProperty first)
        then Ok (first :: rest)
        else Throw "Failed to generate word timings from Gemini API."
    | _ => Throw "Failed to generate word timings from Gemini API."
    end.
Proof.
  destruct v as [| | | |items|]; try reflexivity.
  destruct items as [|first rest]; [reflexivity|].
  unfold generateWordTimings, tryBody.
  destruct first as [| | | | |fields]; try reflexivity.
  unfold hasOwnProperty, hasAllFields, hidesHasOwnProperty.
  destruct (hasKey fields (js "hasOwnProperty")).
  - rewrite andb_false_r. reflexivity.
  - rewrite andb_true_r.
    destruct (hasKey fields (js "word")); [|reflexivity].
    destruct (hasKey fields (js "start")); [|reflexivity].
    destruct (hasKey fields (js "end")); reflexivity.
Qed.

(** C10. An empty timing list goes through: an empty array is returned as
    a successful empty result, and reconciling no timings gives the whole
    transcript as one whitespace element, or nothing for an empty
    transcript. *)
Theorem empty_timing_list_accepted :
  generateWordTimings (Some (JArray [])) = Ok [] /\
  forall textInput : jsstring,
    newViewElements textInput []
    = match textInput with
      | [] => []
      | _ :: _ => [ViewElementWhitespace textInput]
      end.
Proof.
  split; [reflexivity|].
  intros textInput. unfold newViewElements. cbn [forEach].
  rewrite substringFrom_zero. destruct textInput; reflexivity.
Qed.

(** C9, as stated, fails: an array whose first element is complete is
    returned even though a later element has no [word] field. *)
Lemma malformed_tail_is_returned :
  let complete := JObject [(js "word", JString (js "a"));
                           (js "start", JNumber 0); (js "end", JNumber 1)] in
  let partial := JObject [(js "start", JNumber 1); (js "end", JNumber 2)] in
  malformed (JArray [complete; partial]) = true /\
  generateWordTimings (Some (JArray [complete; partial])) = Ok [complete; partial].
Proof. split; reflexivity. Qed.

(** C9, amended.  A response that cannot be parsed, a value that is not an
    array, and a non-empty array whose first element is not an object with
    the three fields all fail with the one generic error; an array whose
    first element has the three fields (and no field that hides the
    [hasOwnProperty] method) is returned as it is, whatever its later
    elements are. *)
Theorem generateWordTimings_checks_first_element :
  generateWordTimings None = Throw "Failed to generate word timings from Gemini API." /\
  (forall v, (forall items, v <> JArray items) ->
     generateWordTimings (Some v)
     = Throw "Failed to generate word timings from Gemini API.") /\
  (forall first rest, hasAllFields first = false ->
     generateWordTimings (Some (JArray (first :: rest)))
     = Throw "Failed to generate word timings from Gemini API.") /\
  (forall first rest, hasAllFields first = true -> hidesHasOwnProperty first = false ->
     generateWordTimings (Some (JArray (first :: rest))) = Ok (first :: rest)).
Proof.
  split; [reflexivity|]. split; [|split].
  - intros v NA. rewrite generateWordTimings_parsed.
    destruct v; try reflexivity. exfalso. apply (NA items). reflexivity.
  - intros first rest H. rewrite generateWordTimings_parsed, H. reflexivity.
  - intros first rest H N. rewrite generateWordTimings_parsed, H, N. reflexivity.
Qed.

(** ** The active word *)

Local Open Scope Q_scope.

Lemma Qltb_lt (x y : Q) : Qltb x y = true <-> x < y.
Proof.
  unfold Qltb. rewrite negb_true_iff, <- not_true_iff_false, Qle_bool_iff.
  split; [apply Qnot_le_lt | apply Qlt_not_le].
Qed.

Lemma Qltb_ge (x y : Q) : Qltb x y = false <-> y <= x.
Proof.
  unfold Qltb. rewrite negb_false_iff. apply Qle_bool_iff.
Qed.

Lemma isActive_iff (time : Q) (t : WordTiming) :
  isActive time t = true <-> start t <= time /\ time < end_ t.
Proof. unfold isActive. rewrite andb_true_iff, Qle_bool_iff, Qltb_lt. tauto. Qed.

Lemma findIndexFrom_none {A} (p : A -> bool) (l : list A) :
  forall i, (0 <= i)%Z ->
    (findIndexFrom p l i = (-1)%Z <-> forall a, In a l -> p a = false).
Proof.
  induction l as [|a l IH]; intros i Hi; simpl.
  - split; [intros _ b [] | reflexivity].
  - destruct (p a) eqn:P.
    + split; [lia | intros H; rewrite (H a (or_introl eq_refl)) in P; discriminate].
    + rewrite (IH (i + 1)%Z ltac:(lia)). split.
      * intros H b [<-|Hb]; [exact P | apply H; exact Hb].
      * intros H b Hb. apply H. right. exact Hb.
Qed.

(** [findIndex] answers [-1] exactly when no element satisfies the test. *)
Lemma findIndex_none {A} (p : A -> bool) (l : list A) :
  findIndex p l = (-1)%Z <-> forall a, In a l -> p a = false.
Proof. apply findIndexFrom_none. lia. Qed.

(** C3. Over the one-element timing list [[t]] the active index is the
    index of [t] (zero) exactly for times in [[start, end)], and it is the
    "none" value [-1] at the end instant itself. *)
Theorem activeIndex_half_open (t : WordTiming) (time : Q) :
  start t <= end_ t ->
  (activeIndex time [t] = 0%Z <-> start t <= time /\ time < end_ t) /\
  (activeIndex time [t] = (-1)%Z <-> ~ (start t <= time /\ time < end_ t)) /\
  (time == end_ t -> activeIndex time [t] = (-1)%Z).
Proof.
  intros _. unfold activeIndex, findIndex. cbn [findIndexFrom].
  rewrite <- isActive_iff.
  destruct (isActive time t) eqn:E.
  - split; [tauto|]. split.
    + split; [discriminate | intros H; exfalso; apply H; reflexivity].
    + intros Heq. apply isActive_iff in E. destruct E as [_ E].
      rewrite Heq in E. exfalso. exact (Qlt_irrefl _ E).
  - split; [split; discriminate|]. split; [|reflexivity].
    split; [discriminate | reflexivity].
Qed.

Lemma activeIndex_half_open_witness :
  let t := mkWordTiming (js "the") 1 2 in
  start t <= end_ t /\
  activeIndex 1.5 [t] = 0%Z /\
  activeIndex 2 [t] = (-1)%Z.
Proof.
  assert (H : start (mkWordTiming (js "the") 1 2) <= end_ (mkWordTiming (js "the") 1 2))
    by (simpl; discriminate).
  split; [exact H|]. split.
  - apply (activeIndex_half_open (mkWordTiming (js "the") 1 2) 1.5 H).
    simpl. split; [discriminate | reflexivity].
  - apply (activeIndex_half_open (mkWordTiming (js "the") 1 2) 2 H).
    reflexivity.
Defined.

(** C2, as stated, fails: in the gap between two words the tracked index
    keeps the word that was active before. *)
Lemma handleTimeUpdate_gap_keeps_previous :
  let timings := [mkWordTiming (js "a") 0 1; mkWordTiming (js "b") 2 3] in
  let s := mkApp timings true false 0 None in
  let audio := mkAudio 1.5 in
  (forall t, In t timings -> isActive (currentTime audio) t = false) /\
  activeIndex (currentTime audio) timings = (-1)%Z /\
  activeWordIndex (run (handleTimeUpdate (Some audio) s) s) = 0%Z.
Proof.
  split; [|split; reflexivity].
  intros t [<-|[<-|[]]]; reflexivity.
Qed.

(** C2, amended.  On a time update the tracked index becomes the index of
    the first timing whose interval contains the playback time; when no
    interval contains it (the search answers [-1]) the tracked index is
    left as it was: in a gap the previously active word stays active. *)
Theorem handleTimeUpdate_tracks_or_keeps (audio : AudioElement) (s : AppState) :
  (activeIndex (currentTime audio) (wordTimings s) = (-1)%Z <->
   forall t, In t (wordTimings s) -> isActive (currentTime audio) t = false) /\
  activeWordIndex (run (handleTimeUpdate (Some audio) s) s)
  = (if (activeIndex (currentTime audio) (wordTimings s) =? -1)%Z
     then activeWordIndex s
     else activeIndex (currentTime audio) (wordTimings s)).
Proof.
  split; [apply findIndex_none|].
  unfold handleTimeUpdate, activeIndex.
  destruct (findIndex (isActive (currentTime audio)) (wordTimings s) =? -1)%Z;
    reflexivity.
Qed.

Local Close Scope Q_scope.

(** ** The exporting flag *)

(** C8. A start-export request while the flag is set does nothing; a
    request that passes the guard sets the flag as its first operation,
    before the seek, the recorder, the playback or the frame loop are
    started; and the flag is clear after each way out of a session: the
    recorder's stop handler, a canvas without a 2d context (whether
    [exportProcess] runs at once or from the seeked listener), and a
    rejected playback start. *)
Theorem exporting_flag_life_cycle :
  (forall audioRef ctx timings playing active err,
     handleExportVideo audioRef ctx (mkApp timings playing true active err) = []) /\
  (forall audioEl ctx t ts playing active err,
     let s := mkApp (t :: ts) playing false active err in
     hd_error (handleExportVideo (Some audioEl) ctx s) = Some (SetIsExporting true) /\
     (Qeq_bool (currentTime audioEl) 0 = false ->
      handleExportVideo (Some audioEl) ctx s
      = [SetIsExporting true; AudioPause; SetIsPlaying false; SetActiveWordIndex (-1);
         AddSeekedListener; AudioSeekToZero] /\
      isExporting (run (handleExportVideo (Some audioEl) ctx s) s) = true) /\
     (Qeq_bool (currentTime audioEl) 0 = true ->
      handleExportVideo (Some audioEl) ctx s
      = [SetIsExporting true; AudioPause; SetIsPlaying false; SetActiveWordIndex (-1)]
        ++ exportProcess ctx /\
      isExporting (run (handleExportVideo (Some audioEl) ctx s) s) = ctx)) /\
  (forall s audioRef, isExporting (run (recorder_onstop audioRef) s) = false) /\
  (forall s, isExporting (run (exportProcess false) s) = false) /\
  (forall s, isExporting (run (onSeeked false) s) = false) /\
  (forall s recorderState, isExporting (run (play_catch recorderState) s) = false).
Proof.
  split; [|split; [|split; [|split; [|split]]]].
  - intros [audioEl|] ctx timings playing active err; simpl; [|reflexivity].
    rewrite orb_true_r. reflexivity.
  - intros audioEl ctx t ts playing active err s. unfold handleExportVideo.
    cbn [wordTimings isExporting s orb]. split; [reflexivity|].
    split; intros ->.
    + split; reflexivity.
    + split; [reflexivity|]. destruct ctx; reflexivity.
  - intros s [audio|]; reflexivity.
  - intros s; reflexivity.
  - intros s; reflexivity.
  - intros s [|]; reflexivity.
Qed.

(** ** The layout of whitespace *)

Local Open Scope Q_scope.

Lemma codePoints_step (c d : codeUnit) (r : jsstring) :
  codePoints (c :: d :: r)
  = if isHighSurrogate c && isLowSurrogate d
    then [c; d] :: codePoints r
    else [c] :: codePoints (d :: r).
Proof. reflexivity. Qed.

(** The code points of a string, put back together, are the string. *)
Lemma codePoints_concat (s : jsstring) : List.concat (codePoints s) = s.
Proof.
  assert (H : forall n s, (List.length s <= n)%nat -> List.concat (codePoints s) = s).
  { induction n as [|n IH]; intros [|c [|d r]] L; simpl in L; try reflexivity; try lia.
    rewrite codePoints_step.
    destruct (isHighSurrogate c && isLowSurrogate d); cbn [List.concat app].
    - rewrite (IH r) by lia. reflexivity.
    - rewrite (IH (d :: r)) by (simpl; lia). reflexivity. }
  apply (H (List.length s)). lia.
Qed.

(** C7, as stated, fails: a space that would cross the left padding wraps
    the line and is then not placed, so the cursor stands at the right edge
    and has not moved left by the width of the space. *)
Lemma overflowing_space_only_wraps :
  let measureText := fun _ : jsstring => 1000 in
  let st := layout measureText [ViewElementWhitespace (js " ")] in
  let st' := layoutChar measureText st (js " ") in
  currentX st == 860 /\
  currentX st - measureText (js " ") < PADDING /\
  layout measureText [ViewElementWhitespace (js "  ")] = st' /\
  currentX st' == canvas_width - PADDING /\
  currentY st' == currentY st + LINE_HEIGHT /\
  ~ currentX st' == canvas_width - PADDING - measureText (js " ") /\
  ~ currentX st' == currentX st - measureText (js " ").
Proof.
  cbv zeta. repeat split; try reflexivity; vm_compute; discriminate.
Qed.

(** C7, amended.  A newline always wraps: the horizontal cursor goes back to
    the right edge and the vertical cursor moves down one line.  Any other
    character moves the horizontal cursor left by its measured width when it
    fits; when it would cross the left padding the line is wrapped and the
    character is not placed: the cursor stays at the right edge.  A
    whitespace element is laid out one character (code point) at a time
    and adds no word layout. *)
Theorem layoutChar_cases (measureText : jsstring -> Q) (st : LayoutState)
    (char : jsstring) :
  let wrapped := mkLayoutState (wordLayouts st) (canvas_width - PADDING)
                               (currentY st + LINE_HEIGHT) in
  (char = [10%N] -> layoutChar measureText st char = wrapped) /\
  (char <> [10%N] -> currentX st - measureText char < PADDING ->
   layoutChar measureText st char = wrapped) /\
  (char <> [10%N] -> PADDING <= currentX st - measureText char ->
   layoutChar measureText st char
   = mkLayoutState (wordLayouts st) (currentX st - measureText char) (currentY st)) /\
  (forall content,
     layoutElement measureText st (ViewElementWhitespace content)
     = fold_left (layoutChar measureText) (codePoints content) st /\
     wordLayouts (layoutElement measureText st (ViewElementWhitespace content))
     = wordLayouts st).
Proof.
  cbv zeta. unfold layoutChar.
  split; [|split; [|split]].
  - intros ->. reflexivity.
  - intros NE O. destruct (JSString.eqb char [10%N]) eqn:E;
      [apply eqb_eq in E; contradiction|].
    apply Qltb_lt in O. rewrite O. reflexivity.
  - intros NE F. destruct (JSString.eqb char [10%N]) eqn:E;
      [apply eqb_eq in E; contradiction|].
    apply Qltb_ge in F. rewrite F. reflexivity.
  - intros content. split; [reflexivity|].
    cbn [layoutElement]. generalize (codePoints content) as chars. intros chars.
    revert st; induction chars as [|ch chars IH]; intros st; [reflexivity|].
    cbn [fold_left]. rewrite IH. unfold layoutChar.
    destruct (JSString.eqb ch [10%N]); [reflexivity|].
    destruct (Qltb (currentX st - measureText ch) PADDING); reflexivity.
Qed.

Local Close Scope Q_scope.

(** ** The scroll position *)

Local Open Scope Q_scope.

Lemma Qltb_irrefl (x : Q) : Qltb x x = false.
Proof. apply Qltb_ge. apply Qle_refl. Qed.

(** The distance to the target after the interpolation line of [smooth]. *)
Lemma lerp_distance (T c : Q) :
  Qabs (T - (c + (T - c) * LERP_FACTOR)) == Qabs (T - c) * (23 # 25).
Proof.
  assert (E : T - (c + (T - c) * LERP_FACTOR) == (T - c) * (23 # 25))
    by (unfold LERP_FACTOR; ring).
  rewrite E, Qabs_Qmult. reflexivity.
Qed.

Lemma smooth_snap (T c : Q) :
  Qabs (T - c) * (23 # 25) < 0.5 -> smooth T c = T.
Proof.
  intros H. unfold smooth.
  assert (L : Qltb (Qabs (T - (c + (T - c) * LERP_FACTOR))) 0.5 = true).
  { apply Qltb_lt. rewrite lerp_distance. exact H. }
  rewrite L. reflexivity.
Qed.

Lemma smooth_no_snap (T c : Q) :
  0.5 <= Qabs (T - c) * (23 # 25) ->
  Qabs (T - smooth T c) == Qabs (T - c) * (23 # 25).
Proof.
  intros H. unfold smooth.
  assert (L : Qltb (Qabs (T - (c + (T - c) * LERP_FACTOR))) 0.5 = false).
  { apply Qltb_ge. rewrite lerp_distance. exact H. }
  rewrite L. apply lerp_distance.
Qed.

Lemma smooth_fixed (T : Q) : smooth T T = T.
Proof.
  apply smooth_snap.
  assert (E : T - T == 0) by ring.
  rewrite E. reflexivity.
Qed.

Lemma smooth_iter_fixed (T : Q) (k : nat) : Nat.iter k (smooth T) T = T.
Proof.
  induction k as [|k IH]; [reflexivity|].
  rewrite Nat.iter_succ, IH. apply smooth_fixed.
Qed.

(** Each step that does not snap shortens the distance by more than 1/25,
    so a distance of at most [n/25] is closed within [n + 1] frames. *)
Lemma smooth_reaches (T : Q) (n : nat) :
  forall c, Qabs (T - c) * 25 <= inject_Z (Z.of_nat n) ->
            exists k, Nat.iter k (smooth T) c = T.
Proof.
  induction n as [|n IH]; intros c B.
  - exists 1%nat. simpl. apply smooth_snap.
    change (inject_Z (Z.of_nat 0)) with 0 in B. lra.
  - destruct (Qlt_le_dec (Qabs (T - c) * (23 # 25)) 0.5) as [S|NS].
    + exists 1%nat. simpl. apply smooth_snap. exact S.
    + destruct (IH (smooth T c)) as [k Hk].
      * rewrite (smooth_no_snap T c NS).
        rewrite Nat2Z.inj_succ in B. unfold Z.succ in B. rewrite inject_Z_plus in B.
        change (inject_Z 1) with 1 in B. lra.
      * exists (S k). rewrite Nat.iter_succ_r. exact Hk.
Qed.

(** From any position the smoothing step reaches the target after finitely
    many frames, and stays on it. *)
Lemma smooth_converges (T c : Q) :
  exists n, forall k, (n <= k)%nat -> Nat.iter k (smooth T) c = T.
Proof.
  destruct (smooth_reaches T (Z.to_nat (Qceiling (Qabs (T - c) * 25))) c) as [n Hn].
  - eapply Qle_trans; [apply Qle_ceiling|].
    rewrite <- Zle_Qle. lia.
  - exists n. intros k Hk.
    replace k with ((k - n) + n)%nat by lia.
    rewrite Nat.iter_add, Hn. apply smooth_iter_fixed.
Qed.

(** [Math.max(0, Math.min(v, m))] is [v] clamped to [[0, m]]. *)
Lemma clamp_spec (v m : Q) :
  0 <= m ->
  0 <= Math_max 0 (Math_min v m) <= m /\
  (v <= 0 -> Math_max 0 (Math_min v m) == 0) /\
  (0 <= v <= m -> Math_max 0 (Math_min v m) == v) /\
  (m <= v -> Math_max 0 (Math_min v m) == m).
Proof.
  intros Hm. unfold Math_max, Math_min.
  destruct (Qltb m v) eqn:A; [apply Qltb_lt in A | apply Qltb_ge in A].
  - destruct (Qltb 0 m) eqn:B; [apply Qltb_lt in B | apply Qltb_ge in B];
      repeat split; intros; lra.
  - destruct (Qltb 0 v) eqn:B; [apply Qltb_lt in B | apply Qltb_ge in B];
      repeat split; intros; lra.
Qed.

(** Clamping a clamped value changes nothing. *)
Lemma clamp_idempotent (v m : Q) :
  0 <= m ->
  Math_max 0 (Math_min (Math_max 0 (Math_min v m)) m) = Math_max 0 (Math_min v m).
Proof.
  intros Hm.
  assert (Z0 : Math_max 0 (Math_min 0 m) = 0).
  { unfold Math_max, Math_min.
    rewrite (proj2 (Qltb_ge m 0) Hm), Qltb_irrefl. reflexivity. }
  destruct (Qltb m v) eqn:A.
  - destruct (Qltb 0 m) eqn:B.
    + assert (E : Math_max 0 (Math_min v m) = m)
        by (unfold Math_max, Math_min; rewrite A, B; reflexivity).
      rewrite E. unfold Math_max, Math_min. rewrite Qltb_irrefl, B. reflexivity.
    + assert (E : Math_max 0 (Math_min v m) = 0)
        by (unfold Math_max, Math_min; rewrite A, B; reflexivity).
      rewrite E. exact Z0.
  - destruct (Qltb 0 v) eqn:B.
    + assert (E : Math_max 0 (Math_min v m) = v)
        by (unfold Math_max, Math_min; rewrite A, B; reflexivity).
      rewrite E. exact E.
    + assert (E : Math_max 0 (Math_min v m) = 0)
        by (unfold Math_max, Math_min; rewrite A, B; reflexivity).
      rewrite E. exact Z0.
Qed.

(** One frame, when the text is taller than the canvas. *)
Lemma scrollStep_scrolling layouts total i st :
  canvas_height < total ->
  scrollStep layouts total i st
  = let target :=
      Math_max 0
        (Math_min
           match find (fun l => (originalIndex l =? i)%Z) layouts with
           | Some l => y l - canvas_height / 2
           | None => targetScrollY st
           end
           (total - canvas_height)) in
    mkScroll (smooth target (currentScrollY st)) target.
Proof.
  intros H. unfold scrollStep. rewrite (proj2 (Qltb_lt _ _) H). reflexivity.
Qed.

(** While the active index stays the same, the target is the same from the
    first frame on, and the frames only smooth towards it. *)
Lemma scrollStep_iter layouts total i st (k : nat) :
  canvas_height < total ->
  let first := scrollStep layouts total i st in
  Nat.iter k (scrollStep layouts total i) first
  = mkScroll (Nat.iter k (smooth (targetScrollY first)) (currentScrollY first))
             (targetScrollY first).
Proof.
  intros H first. induction k as [|k IH]; [destruct first; reflexivity|].
  rewrite Nat.iter_succ, IH, scrollStep_scrolling by exact H.
  cbn [targetScrollY currentScrollY].
  assert (T : Math_max 0
                (Math_min
                   match find (fun l => (originalIndex l =? i)%Z) layouts with
                   | Some l => y l - canvas_height / 2
                   | None => targetScrollY first
                   end
                   (total - canvas_height))
              = targetScrollY first).
  { unfold first. rewrite scrollStep_scrolling by exact H.
    cbn [targetScrollY].
    destruct (find _ layouts); [reflexivity|].
    apply clamp_idempotent. lra. }
  rewrite T. reflexivity.
Qed.

(** Frames drawn while one and the same index is active are iterations of
    one scroll step. *)
Lemma renderFrames_same_index timings layouts total i (times : list Q) :
  Forall (fun time => activeIndex time timings = i) times ->
  forall st,
    renderFrames timings layouts total times st
    = Nat.iter (List.length times) (scrollStep layouts total i) st.
Proof.
  unfold renderFrames.
  induction 1 as [|time times Ht _ IH]; intros st; [reflexivity|].
  cbn [fold_left List.length]. rewrite IH, Nat.iter_succ_r.
  unfold renderFrame. fold (activeIndex time timings). rewrite Ht. reflexivity.
Qed.

(** C6. When the text is taller than the canvas, the target of a frame with
    an active word is that word's [y] minus half the canvas height, clamped
    to [[0, totalTextHeight - canvasHeight]]; the scroll position of the
    frame is the smoothing step applied to the previous position; for any
    fixed target the smoothing step, applied again and again, makes the
    position equal to the target after finitely many frames and keeps it
    there; and so do the frames themselves for as long as the active index,
    and with it the target, stays the same. *)
Theorem scroll_target_and_convergence :
  (forall timings layouts total time st l,
     canvas_height < total ->
     find (fun l => (originalIndex l =? activeIndex time timings)%Z) layouts = Some l ->
     let target := targetScrollY (renderFrame timings layouts total time st) in
     let wanted := y l - canvas_height / 2 in
     0 <= target <= total - canvas_height /\
     (wanted <= 0 -> target == 0) /\
     (0 <= wanted <= total - canvas_height -> target == wanted) /\
     (total - canvas_height <= wanted -> target == total - canvas_height)) /\
  (forall timings layouts total time st,
     canvas_height < total ->
     currentScrollY (renderFrame timings layouts total time st)
     = smooth (targetScrollY (renderFrame timings layouts total time st))
              (currentScrollY st)) /\
  (forall target current,
     exists n, forall k, (n <= k)%nat -> Nat.iter k (smooth target) current = target) /\
  (forall timings layouts total i st,
     canvas_height < total ->
     exists n, forall times,
       (n <= List.length times)%nat ->
       Forall (fun time => activeIndex time timings = i) times ->
       currentScrollY (renderFrames timings layouts total times st)
       = targetScrollY (renderFrames timings layouts total times st)).
Proof.
  split; [|split; [|split]].
  - intros timings layouts total time st l H F. cbv zeta.
    unfold renderFrame. fold (activeIndex time timings).
    rewrite scrollStep_scrolling by exact H. cbn [targetScrollY]. rewrite F.
    apply clamp_spec. lra.
  - intros timings layouts total time st H. unfold renderFrame.
    rewrite scrollStep_scrolling by exact H. reflexivity.
  - intros target current. apply smooth_converges.
  - intros timings layouts total i st H.
    destruct (smooth_converges
                (targetScrollY (scrollStep layouts total i st))
                (currentScrollY (scrollStep layouts total i st)))
      as [n Hn].
    exists (S n). intros times L Same.
    rewrite (renderFrames_same_index _ _ _ _ _ Same).
    destruct (List.length times) as [|k]; [lia|].
    rewrite Nat.iter_succ_r, scrollStep_iter by exact H.
    cbn [targetScrollY currentScrollY]. apply Hn. lia.
Qed.

(** A target 1 px away is reached at the ninth frame, and not before. *)
Example smooth_one_pixel :
  Nat.iter 9 (smooth 1) 0 = 1 /\ ~ Nat.iter 8 (smooth 1) 0 == 1.
Proof. split; [vm_compute; reflexivity | vm_compute; discriminate]. Qed.

Local Close Scope Q_scope.

(** * Further properties *)

(** ** Reconciliation: the shape of the result *)

Lemma wellSeparated_app_word (es : list ViewElement) timing index :
  wellSeparated (es ++ [ViewElementWord timing index]) = wellSeparated es.
Proof.
  induction es as [|[t i|c] es IH]; [reflexivity | exact IH |].
  cbn [app wellSeparated]. rewrite IH.
  destruct es as [|[t i|c'] es]; reflexivity.
Qed.

Lemma endsWithWhitespace_app (es : list ViewElement) (e : ViewElement) :
  endsWithWhitespace (es ++ [e]) = isWhitespaceElement e.
Proof.
  induction es as [|a es IH]; [reflexivity|].
  cbn [app]. destruct es as [|b es]; [reflexivity|]. exact IH.
Qed.

Lemma wellSeparated_app_whitespace (es : list ViewElement) (content : jsstring) :
  endsWithWhitespace es = false ->
  wellSeparated (es ++ [ViewElementWhitespace content])
  = wellSeparated es && truthy content.
Proof.
  induction es as [|a es IH]; intros E.
  - simpl. rewrite !andb_true_r. reflexivity.
  - destruct es as [|b es].
    + destruct a as [t i|c]; [|discriminate E]. simpl. rewrite !andb_true_r. reflexivity.
    + specialize (IH E). destruct a as [t i|c]; [exact IH|].
      cbn [app wellSeparated] in *. rewrite IH.
      destruct b; rewrite ?andb_false_r, ?andb_true_r, ?andb_assoc; reflexivity.
Qed.

Lemma forEach_wellSeparated (textInput : jsstring) (timings : list WordTiming) :
  forall index es c,
    wellSeparated es = true -> endsWithWhitespace es = false ->
    wellSeparated (fst (forEach textInput timings index (es, c))) = true /\
    endsWithWhitespace (fst (forEach textInput timings index (es, c))) = false.
Proof.
  induction timings as [|t ts IH]; intros index es c W E; cbn [forEach].
  - split; assumption.
  - unfold forEachBody.
    destruct (indexOf textInput (word t) c =? -1).
    + apply IH; [rewrite wellSeparated_app_word | rewrite endsWithWhitespace_app];
        auto.
    + destruct (truthy (substring textInput c (indexOf textInput (word t) c))) eqn:T.
      * apply IH; [|apply endsWithWhitespace_app].
        rewrite wellSeparated_app_word, wellSeparated_app_whitespace, W, T by exact E.
        reflexivity.
      * apply IH; [rewrite wellSeparated_app_word | rewrite endsWithWhitespace_app];
          auto.
Qed.

(** X2. The reconciled list never holds an empty whitespace element, and
    never two whitespace elements side by side: between two word elements
    there is at most one run of text. *)
Theorem newViewElements_wellSeparated (textInput : jsstring) (timings : list WordTiming) :
  wellSeparated (newViewElements textInput timings) = true.
Proof.
  unfold newViewElements.
  destruct (forEach_wellSeparated textInput timings 0 [] 0 eq_refl eq_refl) as [W E].
  destruct (forEach textInput timings 0 ([], 0)) as [es c]. cbn [fst] in W, E.
  destruct (truthy (substringFrom textInput c)) eqn:T; [|exact W].
  rewrite wellSeparated_app_whitespace, W, T by exact E. reflexivity.
Qed.

Lemma withoutSomeWords_app (a ka b kb : list ViewElement) :
  withoutSomeWords a ka -> withoutSomeWords b kb ->
  withoutSomeWords (a ++ b) (ka ++ kb).
Proof.
  intros Ha Hb. induction Ha; cbn [app]; [exact Hb | |];
    constructor; assumption.
Qed.

Lemma withoutSomeWords_refl (es : list ViewElement) : withoutSomeWords es es.
Proof. induction es; constructor; assumption. Qed.

(** The text up to the cursor, the text skipped and the word found make the
    text up to the new cursor. *)
Lemma found_step_text (textInput w : jsstring) (c p : Z) :
  0 <= c <= length textInput ->
  indexOf textInput w c = p -> p <> -1 ->
  0 <= p + length w <= length textInput /\
  firstn (Z.to_nat c) textInput ++ substring textInput c p ++ w
  = firstn (Z.to_nat (p + length w)) textInput.
Proof.
  intros Hc Ep NF.
  destruct (indexOf_found _ _ _ _ Ep NF) as (L & B & post & P).
  assert (Hcl : clamp c 0 (length textInput) = c) by (unfold clamp; lia).
  rewrite Hcl in L. pose proof (length_nonneg w) as Hw.
  split; [lia|].
  rewrite app_assoc, firstn_app_substring by lia.
  apply (firstn_extend_word _ _ post); [lia | exact P].
Qed.

Lemma forEach_keeps_text (textInput : jsstring) (timings : list WordTiming) :
  forall index es c kept,
    0 <= c <= length textInput ->
    withoutSomeWords es kept ->
    concatContents kept = firstn (Z.to_nat c) textInput ->
    exists kept',
      withoutSomeWords (fst (forEach textInput timings index (es, c))) kept' /\
      0 <= snd (forEach textInput timings index (es, c)) <= length textInput /\
      concatContents kept'
      = firstn (Z.to_nat (snd (forEach textInput timings index (es, c)))) textInput.
Proof.
  induction timings as [|t ts IH]; intros index es c kept Hc R K; cbn [forEach].
  - exists kept. auto.
  - destruct (Z.eq_dec (indexOf textInput (word t) c) (-1)) as [NF|F].
    + rewrite forEachBody_not_found by exact NF.
      apply (IH _ _ _ kept); [exact Hc | | exact K].
      rewrite <- (app_nil_r kept). apply withoutSomeWords_app; [exact R|].
      apply withoutSomeWords_drop. constructor.
    + rewrite forEachBody_found by exact F.
      destruct (found_step_text textInput (word t) c _ Hc eq_refl F) as [Hc' T].
      set (p := indexOf textInput (word t) c) in *.
      apply (IH _ _ _
               ((if truthy (substring textInput c p)
                 then kept ++ [ViewElementWhitespace (substring textInput c p)]
                 else kept) ++ [ViewElementWord t index])); [exact Hc' | |].
      * apply withoutSomeWords_app; [|apply withoutSomeWords_refl].
        destruct (truthy (substring textInput c p)); [|exact R].
        apply withoutSomeWords_app; [exact R | apply withoutSomeWords_refl].
      * rewrite <- T, concatContents_app.
        assert (W : concatContents [ViewElementWord t index] = word t)
          by (unfold concatContents; simpl; apply app_nil_r).
        rewrite W, app_assoc. f_equal.
        destruct (truthy (substring textInput c p)) eqn:E.
        -- rewrite concatContents_app, K. f_equal.
           unfold concatContents; simpl; apply app_nil_r.
        -- rewrite (truthy_false _ E), app_nil_r. exact K.
Qed.

(** X3. No text of the transcript is lost, whether the words are found or
    not: leaving out some word elements of the reconciled list (the bare
    ones of words that were not found) gives a list whose contents,
    concatenated, are the transcript. *)
Theorem newViewElements_keep_transcript (textInput : jsstring) (timings : list WordTiming) :
  exists kept,
    withoutSomeWords (newViewElements textInput timings) kept /\
    concatContents kept = textInput.
Proof.
  unfold newViewElements.
  pose proof (length_nonneg textInput) as Hl.
  destruct (forEach_keeps_text textInput timings 0 [] 0 [] ltac:(lia)
              withoutSomeWords_nil eq_refl) as (kept & R & Hc & K).
  destruct (forEach textInput timings 0 ([], 0)) as [es c]. cbn [fst snd] in *.
  pose proof (substringFrom_tail textInput c Hc) as T.
  destruct (truthy (substringFrom textInput c)) eqn:E.
  - exists (kept ++ [ViewElementWhitespace (substringFrom textInput c)]). split.
    + apply withoutSomeWords_app; [exact R | apply withoutSomeWords_refl].
    + rewrite concatContents_app, K.
      unfold concatContents at 1; simpl. rewrite app_nil_r. exact T.
  - exists kept. split; [exact R|].
    rewrite (truthy_false _ E), app_nil_r in T. congruence.
Qed.

(** ** The active word: which timing is found *)

Lemma findIndexFrom_first {A} (p : A -> bool) (l : list A) :
  forall k i, findIndexFrom p l k = i -> i <> -1 -> 0 <= k ->
    k <= i < k + Z.of_nat (List.length l) /\
    (exists a, nth_error l (Z.to_nat (i - k)) = Some a /\ p a = true) /\
    (forall j a, (j < Z.to_nat (i - k))%nat -> nth_error l j = Some a -> p a = false).
Proof.
  induction l as [|b l IH]; intros k i E NF Hk; simpl in E; [congruence|].
  destruct (p b) eqn:P.
  - subst i. rewrite Z.sub_diag. cbn [List.length]. split; [lia|]. split.
    + exists b. split; [reflexivity | exact P].
    + intros j a Hj. simpl in Hj. lia.
  - destruct (IH (k + 1) i E NF ltac:(lia)) as (R & (a & Ha & Pa) & First).
    replace (Z.to_nat (i - k)) with (S (Z.to_nat (i - (k + 1)))) by lia.
    cbn [List.length]. split; [lia|]. split.
    + exists a. split; [exact Ha | exact Pa].
    + intros [|j] c Hj Hc; simpl in Hc.
      * injection Hc as <-. exact P.
      * apply (First j c); [lia | exact Hc].
Qed.

(** X4. When the active index is not [-1] it is a position of the timing
    list, the timing there contains the playback time, and no timing before
    it does: of overlapping intervals the earliest in the list wins. *)
Theorem activeIndex_first_match (time : Q) (timings : list WordTiming) (i : Z) :
  activeIndex time timings = i -> i <> -1 ->
  0 <= i < Z.of_nat (List.length timings) /\
  (exists t, nth_error timings (Z.to_nat i) = Some t /\
             (start t <= time)%Q /\ (time < end_ t)%Q) /\
  (forall j t, (j < Z.to_nat i)%nat -> nth_error timings j = Some t ->
               ~ ((start t <= time)%Q /\ (time < end_ t)%Q)).
Proof.
  intros E NF. unfold activeIndex, findIndex in E.
  destruct (findIndexFrom_first _ _ 0 i E NF ltac:(lia)) as (R & (t & Ht & Pt) & First).
  rewrite Z.sub_0_r in *. split; [lia|]. split.
  - exists t. split; [exact Ht|]. apply isActive_iff. exact Pt.
  - intros j u Hj Hu A. apply isActive_iff in A.
    rewrite (First j u Hj Hu) in A. discriminate.
Qed.

Lemma activeIndex_first_match_witness :
  let timings := [mkWordTiming (js "a") 0 2; mkWordTiming (js "b") 1 3] in
  activeIndex 1.5 timings = 0 /\
  (forall j t, (j < Z.to_nat 0)%nat -> nth_error timings j = Some t ->
               ~ ((start t <= 1.5)%Q /\ (1.5 < end_ t)%Q)).
Proof.
  split; [reflexivity|].
  apply (activeIndex_first_match 1.5
           [mkWordTiming (js "a") 0 2; mkWordTiming (js "b") 1 3] 0 eq_refl).
  discriminate.
Defined.

(** In a sequential list every later timing starts no earlier than the
    first one ends. *)
Lemma sequential_later (t : WordTiming) (rest : list WordTiming) :
  sequential (t :: rest) ->
  forall u, In u rest -> (end_ t <= start u)%Q.
Proof.
  revert t; induction rest as [|n rest IH]; intros t S u Hin; [destruct Hin|].
  destruct Hin as [<-|Hu].
  - destruct S as (_ & E & _). exact E.
  - destruct S as (_ & E & S'). pose proof S' as (Sn & _ & _).
    pose proof (IH n S' u Hu) as L.
    eapply Qle_trans; [exact E|]. eapply Qle_trans; [exact Sn | exact L].
Qed.

Lemma sequential_findIndexFrom (time : Q) (timings : list WordTiming) :
  sequential timings ->
  forall i t k,
    nth_error timings i = Some t -> isActive time t = true ->
    findIndexFrom (isActive time) timings k = k + Z.of_nat i.
Proof.
  induction timings as [|h rest IH]; intros S i t k Hi A.
  - destruct i; discriminate Hi.
  - destruct i as [|i]; simpl in Hi.
    + injection Hi as ->. simpl. rewrite A. lia.
    + assert (N : isActive time h = false).
      { apply not_true_iff_false. intros Ah.
        apply isActive_iff in Ah. apply isActive_iff in A.
        pose proof (sequential_later h rest S t (nth_error_In _ _ Hi)) as L.
        destruct Ah as [_ Ah]. destruct A as [A _].
        apply (Qlt_irrefl time).
        eapply Qlt_le_trans; [exact Ah|]. eapply Qle_trans; [exact L | exact A]. }
      simpl. rewrite N.
      rewrite (IH (proj2 (proj2 S)) i t (k + 1) Hi A). lia.
Qed.

(** X5. For timings in playback order (each from its start to its end, each
    starting no earlier than the one before it ends) the active index is
    the position of the timing whose interval contains the playback time:
    at the instant where one word ends and the next starts only the next
    one is active. *)
Theorem activeIndex_sequential (time : Q) (timings : list WordTiming)
    (i : nat) (t : WordTiming) :
  sequential timings ->
  nth_error timings i = Some t ->
  (start t <= time)%Q -> (time < end_ t)%Q ->
  activeIndex time timings = Z.of_nat i.
Proof.
  intros S Hi A B. unfold activeIndex, findIndex.
  rewrite (sequential_findIndexFrom time timings S i t 0 Hi);
    [lia | apply isActive_iff; split; assumption].
Qed.

Lemma activeIndex_sequential_witness :
  let timings := [mkWordTiming (js "a") 0 1; mkWordTiming (js "b") 1 2] in
  sequential timings /\ activeIndex 1 timings = 1.
Proof.
  assert (S : sequential [mkWordTiming (js "a") 0 1; mkWordTiming (js "b") 1 2])
    by (simpl; repeat split; discriminate).
  split; [exact S|].
  apply (activeIndex_sequential 1 _ 1%nat (mkWordTiming (js "b") 1 2) S eq_refl);
    [discriminate | reflexivity].
Defined.

(** ** The layout pass: what is placed, and where *)

Local Open Scope Q_scope.

Lemma layoutChars_wordLayouts (measureText : jsstring -> Q) (chars : list jsstring) :
  forall st,
    wordLayouts (fold_left (layoutChar measureText) chars st) = wordLayouts st.
Proof.
  induction chars as [|ch chars IH]; intros st; [reflexivity|].
  cbn [fold_left]. rewrite IH. unfold layoutChar.
  destruct (JSString.eqb ch [10%N]); [reflexivity|].
  destruct (Qltb (currentX st - measureText ch) PADDING); reflexivity.
Qed.

Lemma layoutElements_words (measureText : jsstring -> Q) (es : list ViewElement) :
  forall st,
    map (fun l => (layout_word l, originalIndex l, width l))
        (wordLayouts (fold_left (layoutElement measureText) es st))
    = map (fun l => (layout_word l, originalIndex l, width l)) (wordLayouts st)
      ++ map (fun ti => (word (fst ti), snd ti, measureText (word (fst ti))))
             (wordElements es).
Proof.
  induction es as [|[t i|content] es IH]; intros st; cbn [fold_left wordElements map].
  - rewrite app_nil_r. reflexivity.
  - rewrite IH. cbn [layoutElement wordLayouts].
    destruct (Qltb (currentX st - measureText (word t)) PADDING);
      cbn [wordLayouts]; rewrite map_app, <- app_assoc; reflexivity.
  - rewrite IH. cbn [layoutElement]. rewrite layoutChars_wordLayouts. reflexivity.
Qed.

(** X6. The layout pass places every word element once, in order, under its
    [originalIndex] and with its measured width; whitespace elements place
    nothing. *)
Theorem layout_places_every_word (measureText : jsstring -> Q) (es : list ViewElement) :
  map (fun l => (layout_word l, originalIndex l, width l))
      (wordLayouts (layout measureText es))
  = map (fun ti => (word (fst ti), snd ti, measureText (word (fst ti))))
        (wordElements es).
Proof. unfold layout. rewrite layoutElements_words. reflexivity. Qed.

Lemma layoutChars_right_edge (measureText : jsstring -> Q) (chars : list jsstring) :
  (forall s, 0 <= measureText s) ->
  forall st, currentX st <= canvas_width - PADDING ->
    currentX (fold_left (layoutChar measureText) chars st) <= canvas_width - PADDING.
Proof.
  intros NN. induction chars as [|ch chars IH]; intros st H; [exact H|].
  cbn [fold_left]. apply IH. unfold layoutChar.
  destruct (JSString.eqb ch [10%N]); [apply Qle_refl|].
  destruct (Qltb (currentX st - measureText ch) PADDING); cbn [currentX];
    [apply Qle_refl|].
  pose proof (NN ch). lra.
Qed.

Lemma layoutElements_margins (measureText : jsstring -> Q) (es : list ViewElement) :
  (forall s, 0 <= measureText s) ->
  forall st,
    currentX st <= canvas_width - PADDING ->
    Forall (fun l => x l <= canvas_width - PADDING /\
                     (width l <= canvas_width - PADDING - PADDING ->
                      PADDING <= x l - width l))
           (wordLayouts st) ->
    Forall (fun l => x l <= canvas_width - PADDING /\
                     (width l <= canvas_width - PADDING - PADDING ->
                      PADDING <= x l - width l))
           (wordLayouts (fold_left (layoutElement measureText) es st)).
Proof.
  intros NN. induction es as [|[t i|content] es IH]; intros st HX HF; cbn [fold_left].
  - exact HF.
  - pose proof (NN (word t)) as Hw.
    apply IH; cbn [layoutElement];
      destruct (Qltb (currentX st - measureText (word t)) PADDING) eqn:O;
      cbn [currentX wordLayouts currentY].
    + lra.
    + lra.
    + apply Forall_app. split; [exact HF|]. constructor; [|constructor].
      cbn [x width]. split; [apply Qle_refl | intros; lra].
    + apply Forall_app. split; [exact HF|]. constructor; [|constructor].
      cbn [x width]. apply Qltb_ge in O. split; [exact HX | intros; exact O].
  - apply IH; cbn [layoutElement].
    + apply layoutChars_right_edge; assumption.
    + rewrite layoutChars_wordLayouts. exact HF.
Qed.

(** X7. With a font whose measured widths are not negative, every placed
    word has its right edge [x] at or left of the right margin, and a word
    no wider than a full line ([canvas.width - 2 * PADDING]) has its left
    edge [x - width] at or right of the left padding: only a word wider than
    the line can cross the margin. *)
Theorem layout_within_margins (measureText : jsstring -> Q) (es : list ViewElement) :
  (forall s, 0 <= measureText s) ->
  forall l, In l (wordLayouts (layout measureText es)) ->
    x l <= canvas_width - PADDING /\
    (width l <= canvas_width - PADDING - PADDING -> PADDING <= x l - width l).
Proof.
  intros NN. apply Forall_forall. unfold layout.
  apply layoutElements_margins; [exact NN | apply Qle_refl | constructor].
Qed.

Lemma layout_within_margins_witness :
  let measureText := fun s : jsstring => inject_Z (JSString.length s) * 700 in
  let es := [ViewElementWord (mkWordTiming (js "a") 0 1) 0;
             ViewElementWhitespace (js " ");
             ViewElementWord (mkWordTiming (js "bc") 1 2) 1] in
  (forall s, 0 <= measureText s) /\
  forall l, In l (wordLayouts (layout measureText es)) ->
    x l <= canvas_width - PADDING /\
    (width l <= canvas_width - PADDING - PADDING -> PADDING <= x l - width l).
Proof.
  cbv zeta.
  assert (NN : forall s : jsstring, 0 <= inject_Z (JSString.length s) * 700).
  { intros s. apply Qmult_le_0_compat; [|discriminate].
    change 0 with (inject_Z 0). rewrite <- Zle_Qle. apply length_nonneg. }
  split; [exact NN|].
  apply (layout_within_margins (fun s => inject_Z (JSString.length s) * 700) _ NN).
Defined.

Local Close Scope Q_scope.

Local Open Scope Q_scope.

Lemma Math_max_cases (a b : Q) :
  a <= Math_max a b /\ b <= Math_max a b /\ (Math_max a b = a \/ Math_max a b = b).
Proof.
  unfold Math_max. destruct (Qltb a b) eqn:E;
    [apply Qltb_lt in E | apply Qltb_ge in E]; repeat split; auto; lra.
Qed.

(** [Math.max(...ys)] is one of the values and none is larger. *)
Lemma maxY_spec (rest : list CanvasLayout) :
  forall first,
    (forall l, In l (first :: rest) -> y l <= maxY first rest) /\
    (exists l, In l (first :: rest) /\ maxY first rest = y l).
Proof.
  unfold maxY.
  assert (G : forall m,
             m <= fold_left (fun m l => Math_max m (y l)) rest m /\
             (forall l, In l rest -> y l <= fold_left (fun m l => Math_max m (y l)) rest m) /\
             (fold_left (fun m l => Math_max m (y l)) rest m = m \/
              exists l, In l rest /\ fold_left (fun m l => Math_max m (y l)) rest m = y l)).
  { induction rest as [|a rest IH]; intros m; cbn [fold_left].
    - split; [apply Qle_refl|]. split; [intros l []|]. left. reflexivity.
    - destruct (IH (Math_max m (y a))) as (L & U & E).
      destruct (Math_max_cases m (y a)) as (Lm & La & C).
      split; [lra|]. split.
      + intros l [<-|Hl]; [lra | apply U; exact Hl].
      + destruct E as [E|(l & Hl & E)].
        * destruct C as [C|C]; rewrite E, C; [left; reflexivity|].
          right. exists a. split; [left; reflexivity | reflexivity].
        * right. exists l. split; [right; exact Hl | exact E]. }
  intros first. destruct (G (y first)) as (L & U & E). split.
  - intros l [<-|Hl]; [exact L | apply U; exact Hl].
  - destruct E as [E|(l & Hl & E)].
    + exists first. split; [left; reflexivity | exact E].
    + exists l. split; [right; exact Hl | exact E].
Qed.

Lemma layoutChars_currentY (measureText : jsstring -> Q) (chars : list jsstring) :
  forall st, currentY st <= currentY (fold_left (layoutChar measureText) chars st).
Proof.
  induction chars as [|ch chars IH]; intros st; [apply Qle_refl|].
  cbn [fold_left]. eapply Qle_trans; [|apply IH]. unfold layoutChar.
  destruct (JSString.eqb ch [10%N]); cbn [currentY];
    [unfold LINE_HEIGHT, FONT_SIZE; lra|].
  destruct (Qltb (currentX st - measureText ch) PADDING); cbn [currentY];
    unfold LINE_HEIGHT, FONT_SIZE; lra.
Qed.

(** The vertical cursor never moves up, and no word is placed below it. *)
Lemma layoutElements_lines (measureText : jsstring -> Q) (es : list ViewElement) :
  forall st,
    Forall (fun l => y l <= currentY st) (wordLayouts st) ->
    (forall prev a, wordLayouts st = prev ++ [a] -> Forall (fun l => y l <= y a) prev) ->
    let st' := fold_left (layoutElement measureText) es st in
    Forall (fun l => y l <= currentY st') (wordLayouts st') /\
    (forall prev a, wordLayouts st' = prev ++ [a] -> Forall (fun l => y l <= y a) prev).
Proof.
  induction es as [|[t i|content] es IH]; intros st B S; cbn [fold_left].
  - split; assumption.
  - apply IH; cbn [layoutElement];
      destruct (Qltb (currentX st - measureText (word t)) PADDING);
      cbn [currentX wordLayouts currentY].
    + apply Forall_app. split; [|constructor; [apply Qle_refl | constructor]].
      eapply Forall_impl; [|exact B]. cbv beta. intros l Hl.
      unfold LINE_HEIGHT, FONT_SIZE; lra.
    + apply Forall_app. split; [exact B|].
      constructor; [apply Qle_refl | constructor].
    + intros prev a E. apply app_inj_tail in E. destruct E as [<- <-]. cbn [y].
      eapply Forall_impl; [|exact B]. cbv beta. intros l Hl.
      unfold LINE_HEIGHT, FONT_SIZE; lra.
    + intros prev a E. apply app_inj_tail in E. destruct E as [<- <-]. cbn [y].
      exact B.
  - apply IH; cbn [layoutElement]; rewrite layoutChars_wordLayouts; [|exact S].
    eapply Forall_impl; [|exact B]. cbv beta. intros l Hl.
    eapply Qle_trans; [exact Hl | apply layoutChars_currentY].
Qed.

(** X8. Words are placed line after line: no word lies lower than the last
    word placed, so the total text height, computed as the largest [y] plus
    the padding, is the [y] of the last word plus the padding; with no word
    at all it is the padding alone. *)
Theorem layout_totalTextHeight (measureText : jsstring -> Q) (es : list ViewElement) :
  (wordLayouts (layout measureText es) = [] ->
   totalTextHeight (wordLayouts (layout measureText es)) == PADDING) /\
  (forall prev a,
     wordLayouts (layout measureText es) = prev ++ [a] ->
     Forall (fun l => y l <= y a) prev /\
     totalTextHeight (wordLayouts (layout measureText es)) == y a + PADDING).
Proof.
  split.
  - intros ->. reflexivity.
  - intros prev a E.
    destruct (layoutElements_lines measureText es
                (mkLayoutState [] (canvas_width - PADDING) (PADDING + FONT_SIZE))
                (Forall_nil _)
                ltac:(intros p b H; destruct p; discriminate H)) as [_ S].
    fold (layout measureText es) in S. specialize (S prev a E).
    split; [exact S|].
    rewrite E. unfold totalTextHeight.
    destruct (prev ++ [a]) as [|first rest] eqn:L; [destruct prev; discriminate L|].
    destruct (maxY_spec rest first) as [U (l & Hl & M)].
    assert (Ha : In a (first :: rest))
      by (rewrite <- L; apply in_or_app; right; left; reflexivity).
    assert (Hy : y l <= y a).
    { rewrite <- L in Hl. apply in_app_or in Hl. destruct Hl as [Hl|[<-|[]]].
      - exact (proj1 (Forall_forall _ _) S l Hl).
      - apply Qle_refl. }
    pose proof (U a Ha) as Ua. rewrite M in *.
    apply Qplus_inj_r. apply Qle_antisym; assumption.
Qed.

Local Close Scope Q_scope.

(** ** Indices of word elements *)

Lemma indexedFrom_nth (timings : list WordTiming) :
  forall k i t,
    nth_error timings i = Some t ->
    nth_error (indexedFrom timings k) i = Some (t, k + Z.of_nat i).
Proof.
  induction timings as [|h rest IH]; intros k [|i] t H; try discriminate H.
  - injection H as ->. simpl. f_equal. f_equal. lia.
  - simpl in H. cbn [indexedFrom nth_error]. rewrite (IH (k + 1) i t H).
    f_equal. f_equal. lia.
Qed.

Lemma indexedFrom_length (timings : list WordTiming) (k : Z) :
  List.length (indexedFrom timings k) = List.length timings.
Proof.
  revert k; induction timings as [|h rest IH]; intros k; simpl; [|rewrite IH]; reflexivity.
Qed.

Lemma indexedFrom_map_fst (timings : list WordTiming) (k : Z) :
  map fst (indexedFrom timings k) = timings.
Proof.
  revert k; induction timings as [|h rest IH]; intros k; simpl; [|rewrite IH]; reflexivity.
Qed.

Lemma indexedFrom_filter_below (timings : list WordTiming) :
  forall k a, a < k ->
    filter (fun ti : WordTiming * Z => snd ti =? a) (indexedFrom timings k) = [].
Proof.
  induction timings as [|h rest IH]; intros k a H; [reflexivity|].
  cbn [indexedFrom filter snd].
  destruct (Z.eqb_spec k a); [lia|]. apply IH. lia.
Qed.

(** Positions are distinct: at most one element carries a given index. *)
Lemma indexedFrom_filter (timings : list WordTiming) :
  forall k a, k <= a ->
    filter (fun ti : WordTiming * Z => snd ti =? a) (indexedFrom timings k)
    = match nth_error timings (Z.to_nat (a - k)) with
      | Some t => [(t, a)]
      | None => []
      end.
Proof.
  induction timings as [|h rest IH]; intros k a H.
  - destruct (Z.to_nat (a - k)); reflexivity.
  - cbn [indexedFrom filter snd]. destruct (Z.eqb_spec k a) as [->|NE].
    + rewrite Z.sub_diag. cbn [Z.to_nat nth_error].
      rewrite indexedFrom_filter_below by lia. reflexivity.
    + rewrite IH by lia.
      replace (Z.to_nat (a - k)) with (S (Z.to_nat (a - (k + 1)))) by lia.
      reflexivity.
Qed.

Lemma newViewElements_filter_index (textInput : jsstring) (timings : list WordTiming)
    (a : Z) :
  filter (fun ti : WordTiming * Z => snd ti =? a)
         (wordElements (newViewElements textInput timings))
  = if 0 <=? a
    then match nth_error timings (Z.to_nat a) with
         | Some t => [(t, a)]
         | None => []
         end
    else [].
Proof.
  rewrite newViewElements_words_in_order.
  destruct (Z.leb_spec 0 a).
  - rewrite indexedFrom_filter by assumption. rewrite Z.sub_0_r. reflexivity.
  - apply indexedFrom_filter_below. assumption.
Qed.

(** X1. Found or not, every timing gives exactly one word element: the word
    elements of the reconciled list are the timings in their order, and the
    one for the timing at position [i] carries [i] as its [originalIndex],
    which no other element carries. *)
Theorem word_elements_follow_timings (textInput : jsstring) (timings : list WordTiming) :
  map fst (wordElements (newViewElements textInput timings)) = timings /\
  (forall i t, nth_error timings i = Some t ->
     nth_error (wordElements (newViewElements textInput timings)) i
     = Some (t, Z.of_nat i) /\
     filter (fun ti : WordTiming * Z => snd ti =? Z.of_nat i)
            (wordElements (newViewElements textInput timings))
     = [(t, Z.of_nat i)]).
Proof.
  split.
  - rewrite newViewElements_words_in_order. apply indexedFrom_map_fst.
  - intros i t H. split.
    + rewrite newViewElements_words_in_order.
      rewrite (indexedFrom_nth timings 0 i t H). reflexivity.
    + rewrite newViewElements_filter_index.
      destruct (Z.leb_spec 0 (Z.of_nat i)); [|lia].
      rewrite Nat2Z.id, H. reflexivity.
Qed.

(** ** The scroll position stays in range *)

Local Open Scope Q_scope.

Lemma smooth_between (T c : Q) :
  (c <= T -> c <= smooth T c <= T) /\ (T <= c -> T <= smooth T c <= c).
Proof.
  unfold smooth, LERP_FACTOR.
  destruct (Qltb (Qabs (T - (c + (T - c) * 0.08))) 0.5); split; intros H; lra.
Qed.

(** X9. The smoothing step never overshoots and never moves away: the new
    position lies between the old position and the target, so its distance
    to the target is at most what it was. *)
Theorem smooth_never_overshoots (target current : Q) :
  (current <= target -> current <= smooth target current <= target) /\
  (target <= current -> target <= smooth target current <= current) /\
  Qabs (target - smooth target current) <= Qabs (target - current).
Proof.
  destruct (smooth_between target current) as [Up Down].
  split; [exact Up|]. split; [exact Down|].
  destruct (Qlt_le_dec target current) as [H|H].
  - destruct (Down (Qlt_le_weak _ _ H)) as [A B].
    rewrite !Qabs_neg by lra. lra.
  - destruct (Up H) as [A B].
    rewrite !Qabs_pos by lra. lra.
Qed.

Lemma scrollStep_in_range layouts total i st :
  canvas_height < total ->
  0 <= currentScrollY st <= total - canvas_height ->
  0 <= currentScrollY (scrollStep layouts total i st) <= total - canvas_height /\
  0 <= targetScrollY (scrollStep layouts total i st) <= total - canvas_height.
Proof.
  intros H C. rewrite scrollStep_scrolling by exact H.
  cbn [currentScrollY targetScrollY].
  match goal with |- context [smooth ?T _] => set (target := T) end.
  assert (R : 0 <= target <= total - canvas_height).
  { unfold target. apply clamp_spec. lra. }
  split; [|exact R].
  destruct (smooth_between target (currentScrollY st)) as [Up Down].
  destruct (Qlt_le_dec target (currentScrollY st)) as [L|L].
  - destruct (Down (Qlt_le_weak _ _ L)). lra.
  - destruct (Up L). lra.
Qed.

(** X10. The export never scrolls out of the text.  Starting from the
    initial scroll state (position and target zero), after any number of
    frames at any playback times: a text that fits the canvas is never
    scrolled, and for a taller text the position and the target stay within
    [[0, totalTextHeight - canvas.height]]. *)
Theorem renderFrames_never_overscroll
    (timings : list WordTiming) (layouts : list CanvasLayout) (total : Q)
    (times : list Q) :
  (total <= canvas_height ->
   renderFrames timings layouts total times (mkScroll 0 0) = mkScroll 0 0) /\
  (canvas_height < total ->
   0 <= currentScrollY (renderFrames timings layouts total times (mkScroll 0 0))
     <= total - canvas_height /\
   0 <= targetScrollY (renderFrames timings layouts total times (mkScroll 0 0))
     <= total - canvas_height).
Proof.
  split.
  - intros H. unfold renderFrames.
    induction times as [|time times IH]; [reflexivity|].
    cbn [fold_left]. unfold renderFrame at 2, scrollStep.
    rewrite (proj2 (Qltb_ge _ _) H). exact IH.
  - intros H. unfold renderFrames.
    assert (G : forall st,
               0 <= currentScrollY st <= total - canvas_height ->
               0 <= targetScrollY st <= total - canvas_height ->
               let st' := fold_left
                            (fun st time => renderFrame timings layouts total time st)
                            times st in
               0 <= currentScrollY st' <= total - canvas_height /\
               0 <= targetScrollY st' <= total - canvas_height).
    { induction times as [|time times IH]; intros st C T; [split; assumption|].
      cbn [fold_left]. unfold renderFrame at 2 4.
      destruct (scrollStep_in_range layouts total
                  (findIndex (isActive time) timings) st H C) as [C' T'].
      apply IH; assumption. }
    apply G; cbn [currentScrollY targetScrollY]; lra.
Qed.

Local Close Scope Q_scope.

(** ** What a frame of the export paints *)

Lemma drawnTexts_app (a b : list DrawCommand) :
  drawnTexts (a ++ b) = drawnTexts a ++ drawnTexts b.
Proof.
  induction a as [|c a IH]; [reflexivity|].
  destruct c; cbn [app drawnTexts]; rewrite IH; reflexivity.
Qed.

Lemma highlightRects_app (a b : list DrawCommand) :
  highlightRects (a ++ b) = highlightRects a ++ highlightRects b.
Proof.
  induction a as [|c a IH]; [reflexivity|].
  destruct c as [| | |[] ? ? ? ?|]; cbn [app highlightRects]; rewrite IH; reflexivity.
Qed.

Lemma drawWords_texts (a : Z) (layouts : list CanvasLayout) :
  drawnTexts (flat_map (drawWord a) layouts)
  = map (fun tr : jsstring * Z * Q =>
           (fst (fst tr),
            if snd (fst tr) =? a then activeTextColor else inactiveTextColor))
        (map (fun l => (layout_word l, originalIndex l, width l)) layouts).
Proof.
  induction layouts as [|l layouts IH]; [reflexivity|].
  cbn [flat_map map]. rewrite drawnTexts_app, IH. unfold drawWord. cbn [fst snd].
  destruct (originalIndex l =? a); reflexivity.
Qed.

Lemma drawWords_highlights (a : Z) (layouts : list CanvasLayout) :
  List.length (highlightRects (flat_map (drawWord a) layouts))
  = List.length
      (filter (fun tr : jsstring * Z * Q => snd (fst tr) =? a)
              (map (fun l => (layout_word l, originalIndex l, width l)) layouts)).
Proof.
  induction layouts as [|l layouts IH]; [reflexivity|].
  cbn [flat_map map filter]. rewrite highlightRects_app, List.length_app, IH.
  unfold drawWord. cbn [fst snd].
  destruct (originalIndex l =? a); reflexivity.
Qed.

Lemma filter_map_length {A B} (p : B -> bool) (f : A -> B) (l : list A) :
  List.length (filter p (map f l)) = List.length (filter (fun a => p (f a)) l).
Proof.
  induction l as [|a l IH]; [reflexivity|].
  cbn [map filter]. destruct (p (f a)); cbn [List.length]; rewrite IH; reflexivity.
Qed.

(** The active index is [-1] or a position of the timing list. *)
Lemma activeIndex_range (time : Q) (timings : list WordTiming) :
  activeIndex time timings = -1 \/
  exists i t, activeIndex time timings = Z.of_nat i /\ nth_error timings i = Some t.
Proof.
  destruct (Z.eq_dec (activeIndex time timings) (-1)) as [E|NE]; [left; exact E|].
  right. unfold activeIndex, findIndex in *.
  destruct (findIndexFrom_first _ _ 0 _ eq_refl NE ltac:(lia)) as (R & (t & Ht & _) & _).
  rewrite Z.sub_0_r in Ht.
  exists (Z.to_nat (findIndexFrom (isActive time) timings 0)), t.
  split; [lia | exact Ht].
Qed.

(** X11. One frame of the export, over the layout of the reconciled
    transcript: every timing's word is written once, in the order of the
    timings, found in the transcript or not; the word at the active index
    is written in the active colour and all others in the inactive colour;
    and exactly one highlight rectangle is filled when a word is active,
    none in a gap between words. *)
Theorem renderFrame_paints_words
    (measureText : jsstring -> Q) (textInput : jsstring)
    (timings : list WordTiming) (total time : Q) (st : ScrollState) :
  let layouts := wordLayouts (layout measureText (newViewElements textInput timings)) in
  let commands := renderFrameDraw timings layouts total time st in
  drawnTexts commands
  = map (fun ti : WordTiming * Z =>
           (word (fst ti),
            if snd ti =? activeIndex time timings
            then activeTextColor else inactiveTextColor))
        (indexedFrom timings 0) /\
  List.length (highlightRects commands)
  = if activeIndex time timings =? -1 then 0%nat else 1%nat.
Proof.
  cbv zeta. unfold renderFrameDraw. fold (activeIndex time timings).
  set (a := activeIndex time timings).
  assert (L : map (fun l => (layout_word l, originalIndex l, width l))
                  (wordLayouts (layout measureText (newViewElements textInput timings)))
              = map (fun ti : WordTiming * Z =>
                       (word (fst ti), snd ti, measureText (word (fst ti))))
                    (indexedFrom timings 0)).
  { unfold layout. rewrite layoutElements_words, newViewElements_words_in_order.
    reflexivity. }
  split.
  - rewrite !drawnTexts_app, drawWords_texts, L, map_map. cbn [fst snd].
    destruct (Qltb canvas_height total); cbn [drawnTexts app];
      rewrite app_nil_r; reflexivity.
  - rewrite !highlightRects_app, !List.length_app, drawWords_highlights, L.
    rewrite filter_map_length. cbn [fst snd].
    assert (B : List.length (highlightRects
                  [FillRect backgroundColor 0 0 canvas_width canvas_height; Save]) = 0%nat)
      by reflexivity.
    assert (T : List.length (highlightRects
                  (if Qltb canvas_height total
                   then [Translate 0
                           (- currentScrollY
                                (scrollStep
                                   (wordLayouts
                                      (layout measureText
                                         (newViewElements textInput timings)))
                                   total a st))%Q]
                   else [])) = 0%nat)
      by (destruct (Qltb canvas_height total); reflexivity).
    rewrite B, T. cbn [highlightRects List.length]. rewrite Nat.add_0_r. cbn [Nat.add].
    destruct (activeIndex_range time timings) as [E|(i & t & E & Ht)]; fold a in E.
    + rewrite E. rewrite indexedFrom_filter_below by lia. reflexivity.
    + rewrite E. rewrite indexedFrom_filter by lia.
      rewrite Z.sub_0_r, Nat2Z.id, Ht.
      destruct (Z.eqb_spec (Z.of_nat i) (-1)); [lia | reflexivity].
Qed.

(** ** The text viewer *)

Lemma TextViewer_activeSpans (es : list ViewElement) (a : Z) :
  activeSpans (TextViewer es a)
  = map (fun ti : WordTiming * Z => word (fst ti))
        (filter (fun ti : WordTiming * Z => snd ti =? a) (wordElements es)).
Proof.
  unfold TextViewer.
  induction es as [|[t i|c] es IH]; [reflexivity | | exact IH].
  cbn [map activeSpans wordElements filter snd].
  destruct (i =? a); cbn [map fst]; rewrite IH; reflexivity.
Qed.

(** X12. The viewer shows the contents of the view elements in order,
    whatever the active index is; over a reconciled list it highlights the
    word of the timing at the active index and nothing else, and nothing at
    all when the index is [-1] or no position of the timing list. *)
Theorem TextViewer_shows_and_highlights :
  (forall es a, textContent (TextViewer es a) = concatContents es) /\
  (forall textInput timings a,
     activeSpans (TextViewer (newViewElements textInput timings) a)
     = if 0 <=? a
       then match nth_error timings (Z.to_nat a) with
            | Some t => [word t]
            | None => []
            end
       else []).
Proof.
  split.
  - intros es a. unfold textContent, concatContents, TextViewer.
    rewrite map_map. f_equal. apply map_ext. intros [t i|c]; reflexivity.
  - intros textInput timings a.
    rewrite TextViewer_activeSpans, newViewElements_filter_index.
    destruct (0 <=? a); [|reflexivity].
    destruct (nth_error timings (Z.to_nat a)); reflexivity.
Qed.

(** ** Reading the audio file *)

Lemma splitFrom_skip (sep : jsstring) (passed : jsstring) :
  forall rest piece,
    splitFrom sep (passed ++ rest) piece (List.length passed)
    = splitFrom sep rest piece 0.
Proof.
  induction passed as [|c passed IH]; intros rest piece; [reflexivity|].
  cbn [app List.length splitFrom]. apply IH.
Qed.

Lemma isPrefixOf_first_differs (c0 c : codeUnit) (sep' s : jsstring) :
  c <> c0 -> isPrefixOf (c0 :: sep') (c :: s) = false.
Proof.
  intros NE. cbn [isPrefixOf]. destruct (N.eqb_spec c0 c); [congruence | reflexivity].
Qed.

(** A text without the first character of the separator is one piece. *)
Lemma splitFrom_no_separator (c0 : codeUnit) (sep' : jsstring) (s : jsstring) :
  forall piece, ~ In c0 s ->
    splitFrom (c0 :: sep') s piece 0 = [rev piece ++ s].
Proof.
  induction s as [|c s IH]; intros piece NI.
  - cbn [splitFrom]. rewrite app_nil_r. reflexivity.
  - cbn [splitFrom]. rewrite isPrefixOf_first_differs
      by (intros ->; apply NI; left; reflexivity).
    rewrite IH by (intros H; apply NI; right; exact H).
    cbn [rev]. rewrite <- app_assoc. reflexivity.
Qed.

(** The piece before the first separator. *)
Lemma splitFrom_first_piece (c0 : codeUnit) (sep' : jsstring) (before : jsstring) :
  forall piece after, ~ In c0 before ->
    splitFrom (c0 :: sep') (before ++ c0 :: sep' ++ after) piece 0
    = (rev piece ++ before) :: splitFrom (c0 :: sep') after [] 0.
Proof.
  induction before as [|c before IH]; intros piece after NI.
  - cbn [app]. cbn [splitFrom].
    assert (P : isPrefixOf (c0 :: sep') (c0 :: sep' ++ after) = true)
      by (apply isPrefixOf_app; exists after; reflexivity).
    rewrite P, app_nil_r. f_equal.
    replace (List.length (c0 :: sep') - 1)%nat with (List.length sep')
      by (cbn [List.length]; lia).
    apply splitFrom_skip.
  - cbn [app splitFrom]. rewrite isPrefixOf_first_differs
      by (intros ->; apply NI; left; reflexivity).
    rewrite IH by (intros H; apply NI; right; exact H).
    cbn [rev]. rewrite <- app_assoc. reflexivity.
Qed.

(** X13. Reading a data URL ["data:" mime ";base64," payload], where the
    MIME type has neither a semicolon nor a colon and the payload is not
    empty and has no semicolon, gives back exactly the payload and the MIME
    type.  A file whose payload is empty, and a text without any semicolon,
    are refused as an invalid file format; a failed read is an error too. *)
Theorem fileToBase64_data_url :
  (forall mime payload : jsstring,
     ~ In 59%N mime -> ~ In 58%N mime -> ~ In 59%N payload -> payload <> [] ->
     fileToBase64 (Some (js "data:" ++ mime ++ js ";base64," ++ payload))
     = Ok (mkBase64File payload (Some mime))) /\
  (forall before : jsstring,
     ~ In 59%N before ->
     fileToBase64 (Some (before ++ js ";base64,")) = Throw "Invalid file format.") /\
  (forall text : jsstring,
     ~ In 59%N text ->
     fileToBase64 (Some text) = Throw "Invalid file format.") /\
  (exists msg, fileToBase64 None = Throw msg).
Proof.
  split; [|split; [|split]].
  - intros mime payload M1 M2 P NE. unfold fileToBase64, String_split.
    change (js "data:" ++ mime ++ js ";base64," ++ payload)
      with ((js "data:" ++ mime) ++ 59%N :: js "base64," ++ payload).
    change (js ";base64,") with (59%N :: js "base64,").
    rewrite splitFrom_first_piece.
    2:{ intros H. apply in_app_or in H. destruct H as [H|H]; [|exact (M1 H)].
        vm_compute in H. repeat (destruct H as [H|H]; [discriminate H|]). exact H. }
    rewrite splitFrom_no_separator by exact P.
    cbn [rev app nth_error].
    destruct payload as [|p payload]; [congruence|].
    cbn [truthy negb orb].
    change (js "data:" ++ mime) with (js "data" ++ 58%N :: [] ++ mime).
    change (js ":") with [58%N].
    rewrite splitFrom_first_piece.
    2:{ intros H. vm_compute in H. repeat (destruct H as [H|H]; [discriminate H|]). exact H. }
    rewrite splitFrom_no_separator by exact M2.
    reflexivity.
  - intros before B. unfold fileToBase64, String_split.
    change (js ";base64,") with (59%N :: js "base64," ++ []).
    rewrite splitFrom_first_piece by exact B.
    cbn [splitFrom rev app nth_error].
    destruct before; reflexivity.
  - intros text T. unfold fileToBase64, String_split.
    change (js ";base64,") with (59%N :: js "base64,").
    rewrite splitFrom_no_separator by exact T. reflexivity.
  - exists "reader error"%string. reflexivity.
Qed.

Example fileToBase64_mpeg :
  fileToBase64 (Some (js "data:audio/mpeg;base64,SUQzBAA="))
  = Ok (mkBase64File (js "SUQzBAA=") (Some (js "audio/mpeg"))).
Proof. reflexivity. Qed.

(** ** Submitting *)

Lemma trimStart_head (s : jsstring) :
  trimStart s = [] \/ exists c r, trimStart s = c :: r /\ isWhiteSpace c = false.
Proof.
  induction s as [|c s IH]; [left; reflexivity|].
  cbn [trimStart]. destruct (isWhiteSpace c) eqn:W; [exact IH|].
  right. exists c, s. split; [reflexivity | exact W].
Qed.

Lemma trimStart_nil (s : jsstring) :
  trimStart s = [] <-> forallb isWhiteSpace s = true.
Proof.
  induction s as [|c s IH]; [split; reflexivity|].
  cbn [trimStart forallb]. destruct (isWhiteSpace c); [exact IH|].
  split; discriminate.
Qed.

(** The trimmed text is empty exactly when the text is white space only. *)
Lemma String_trim_empty (s : jsstring) :
  truthy (String_trim s) = false <-> forallb isWhiteSpace s = true.
Proof.
  unfold String_trim, trimEnd. split.
  - intros T. apply truthy_false in T.
    assert (E : trimStart (rev (trimStart s)) = []).
    { rewrite <- (rev_involutive (trimStart (rev (trimStart s)))), T. reflexivity. }
    apply trimStart_nil. apply trimStart_nil in E.
    destruct (trimStart_head s) as [N|(c & r & H & W)]; [exact N|].
    rewrite H in E. rewrite forallb_forall in E.
    rewrite (E c) in W; [discriminate|]. apply in_rev. rewrite rev_involutive.
    left. reflexivity.
  - intros A. apply trimStart_nil in A. rewrite A. reflexivity.
Qed.

(** X14. [handleSubmit] asks for both inputs, without touching anything
    else, when no file is chosen or the transcript is white space only.
    Otherwise it never stays in the loading state: it ends in the ready
    state, with the oracle's timings, their reconciled view elements and no
    error message, when the file can be read and the oracle answers; and in
    the error state, with the one synchronisation message and the timings
    and view elements it had before, when either of them fails. *)
Theorem handleSubmit_outcomes
    (oracle : jsstring -> option jsstring -> jsstring -> result (list WordTiming))
    (c : Component) :
  (audioFile c = None \/ forallb isWhiteSpace (textInput c) = true ->
   handleSubmit oracle c
   = setError c (Some "Please provide both an audio file and the transcript text."%string)) /\
  (forall file, audioFile c = Some file -> forallb isWhiteSpace (textInput c) = false ->
     (forall encoded timings,
        fileToBase64 file = Ok encoded ->
        oracle (base64 encoded) (mimeType encoded) (textInput c) = Ok timings ->
        handleSubmit oracle c
        = mkComponent
            (mkApp timings (isPlaying (player c)) (isExporting (player c))
                   (activeWordIndex (player c)) None)
            ready_state (audioFile c) (textInput c)
            (newViewElements (textInput c) timings)) /\
     ((forall encoded, fileToBase64 file = Ok encoded ->
                       exists msg, oracle (base64 encoded) (mimeType encoded)
                                          (textInput c) = Throw msg) ->
      handleSubmit oracle c
      = mkComponent
          (mkApp (wordTimings (player c)) (isPlaying (player c))
                 (isExporting (player c)) (activeWordIndex (player c))
                 (Some "Failed to synchronize audio and text. The model may have been unable to process the request. Please try again with a clearer audio file or more accurate transcript."%string))
          error_state (audioFile c) (textInput c) (viewElements c))).
Proof.
  split.
  - intros [N|W]; unfold handleSubmit.
    + rewrite N. reflexivity.
    + destruct (audioFile c); [|reflexivity].
      rewrite (proj2 (String_trim_empty _) W). reflexivity.
  - intros file F W. unfold handleSubmit. rewrite F.
    assert (T : truthy (String_trim (textInput c)) = true).
    { destruct (truthy (String_trim (textInput c))) eqn:E; [reflexivity|].
      apply String_trim_empty in E. congruence. }
    rewrite T. cbn [negb]. split.
    + intros encoded timings E O. rewrite E. cbn [textInput setError setAppState].
      rewrite O. unfold setAppState, setViewElements, setWordTimings, setError.
      cbn [player appState audioFile textInput viewElements wordTimings isPlaying
           isExporting activeWordIndex error].
      rewrite F. reflexivity.
    + intros Fail.
      assert (R : forall x : Component,
                 x = setAppState
                       (setError (setError (setAppState c loading_state) None)
                          (Some "Failed to synchronize audio and text. The model may have been unable to process the request. Please try again with a clearer audio file or more accurate transcript."%string))
                       error_state ->
                 x = mkComponent
                       (mkApp (wordTimings (player c)) (isPlaying (player c))
                          (isExporting (player c)) (activeWordIndex (player c))
                          (Some "Failed to synchronize audio and text. The model may have been unable to process the request. Please try again with a clearer audio file or more accurate transcript."%string))
                       error_state (Some file) (textInput c) (viewElements c)).
      { intros x ->. unfold setAppState, setError.
        cbn [player appState audioFile textInput viewElements wordTimings isPlaying
             isExporting activeWordIndex error].
        rewrite F. reflexivity. }
      apply R.
      destruct (fileToBase64 file) as [encoded|msg]; [|reflexivity].
      destruct (Fail encoded eq_refl) as [msg O].
      cbn [textInput setError setAppState]. rewrite O. reflexivity.
Qed.

(** ** A whole export session *)

(** X15. An export started from a state that passes the guard, with a 2d
    context, whether or not a seek to zero is needed first.  When the audio
    plays to its end and the recorder's stop handler has run, the player is
    back at rest: not exporting, not playing, no active word, the timings
    and the error message as before; the recorder was started once and
    stopped once, playback was started once and one file was downloaded.
    When instead the playback start is rejected, the recorder is stopped
    just the same, so its stop handler still downloads a file; the flag is
    clear and the error message of the rejection is what remains. *)
Theorem export_session_paths (audioEl : AudioElement) (t : WordTiming)
    (ts : list WordTiming) (playing : bool) (active : Z) (err : option string) :
  let s := mkApp (t :: ts) playing false active err in
  let started :=
    handleExportVideo (Some audioEl) true s
    ++ (if Qeq_bool (currentTime audioEl) 0 then [] else onSeeked true) in
  let completed := started ++ onAudioEnded recording ++ recorder_onstop (Some audioEl) in
  let rejected := started ++ play_catch recording ++ recorder_onstop (Some audioEl) in
  (run completed s = mkApp (t :: ts) false false (-1) err /\
   occurrences RecorderStart completed = 1%nat /\
   occurrences AudioPlay completed = 1%nat /\
   occurrences RecorderStop completed = 1%nat /\
   occurrences DownloadVideo completed = 1%nat) /\
  (run rejected s
   = mkApp (t :: ts) false false (-1)
           (Some "Could not start audio playback for recording."%string) /\
   occurrences RecorderStop rejected = 1%nat /\
   occurrences DownloadVideo rejected = 1%nat).
Proof.
  cbv zeta. unfold handleExportVideo. cbn [wordTimings isExporting orb].
  destruct (Qeq_bool (currentTime audioEl) 0); repeat split; reflexivity.
Qed.

(** ** Line breaks in the layout *)

Local Open Scope Q_scope.

Lemma codePoints_newline (s : jsstring) :
  In 10%N s -> In [10%N] (codePoints s).
Proof.
  assert (H : forall n s, (List.length s <= n)%nat -> In 10%N s -> In [10%N] (codePoints s)).
  { induction n as [|n IH]; intros [|c [|d r]] L I; simpl in L; try lia;
      try (destruct I; fail).
    - destruct I as [<-|[]]. left. reflexivity.
    - rewrite codePoints_step.
      destruct (isHighSurrogate c && isLowSurrogate d) eqn:S.
      + apply andb_true_iff in S. destruct S as [Sc Sd].
        destruct I as [->|[->|I]];
          [vm_compute in Sc; discriminate Sc | vm_compute in Sd; discriminate Sd |].
        right. apply IH; [lia | exact I].
      + destruct I as [<-|I]; [left; reflexivity|].
        right. apply IH; [simpl; lia | exact I]. }
  intros I. apply (H (List.length s)); [apply le_n | exact I].
Qed.

Lemma layoutChars_newline (measureText : jsstring -> Q) (chars : list jsstring) :
  In [10%N] chars ->
  forall st,
    currentY st + LINE_HEIGHT <= currentY (fold_left (layoutChar measureText) chars st).
Proof.
  induction chars as [|ch chars IH]; intros I st; [destruct I|].
  cbn [fold_left]. destruct I as [->|I].
  - eapply Qle_trans; [|apply layoutChars_currentY].
    unfold layoutChar. cbn [JSString.eqb N.eqb Pos.eqb andb currentY]. apply Qle_refl.
  - eapply Qle_trans; [|apply IH; exact I].
    pose proof (layoutChars_currentY measureText [ch] st) as H. cbn [fold_left] in H.
    lra.
Qed.

(** X16. A line break in the transcript is honoured: a word that follows a
    whitespace element with a newline in it is placed at least one line
    height below every word placed before it. *)
Theorem layout_newline_starts_line
    (measureText : jsstring -> Q) (before : list ViewElement)
    (content : jsstring) (timing : WordTiming) (index : Z) :
  In 10%N content ->
  exists previous placed,
    wordLayouts (layout measureText
                   (before ++ [ViewElementWhitespace content;
                               ViewElementWord timing index]))
    = previous ++ [placed] /\
    previous = wordLayouts (layout measureText before) /\
    layout_word placed = word timing /\ originalIndex placed = index /\
    Forall (fun l => y l + LINE_HEIGHT <= y placed) previous.
Proof.
  intros I. unfold layout. rewrite fold_left_app.
  set (st := fold_left (layoutElement measureText) before
               (mkLayoutState [] (canvas_width - PADDING) (PADDING + FONT_SIZE))).
  destruct (layoutElements_lines measureText before
              (mkLayoutState [] (canvas_width - PADDING) (PADDING + FONT_SIZE))
              (Forall_nil _)
              ltac:(intros p b H; destruct p; discriminate H)) as [B _].
  fold st in B.
  cbn [fold_left]. cbn [layoutElement].
  set (st1 := fold_left (layoutChar measureText) (codePoints content) st).
  assert (W : wordLayouts st1 = wordLayouts st) by apply layoutChars_wordLayouts.
  assert (Y : currentY st + LINE_HEIGHT <= currentY st1)
    by (apply layoutChars_newline; apply codePoints_newline; exact I).
  destruct (Qltb (currentX st1 - measureText (word timing)) PADDING);
    cbn [wordLayouts currentY currentX]; rewrite W;
    eexists; eexists; (split; [reflexivity|]); (split; [reflexivity|]);
    (split; [reflexivity|]); (split; [reflexivity|]); cbn [y];
    (eapply Forall_impl; [|exact B]); cbv beta; intros l Hl;
    unfold LINE_HEIGHT, FONT_SIZE in *; lra.
Qed.

Lemma layout_newline_starts_line_witness :
  exists previous placed,
    wordLayouts (layout (fun _ => 10)
                   ([ViewElementWord (mkWordTiming (js "a") 0 1) 0]
                    ++ [ViewElementWhitespace [10%N];
                        ViewElementWord (mkWordTiming (js "b") 1 2) 1]))
    = previous ++ [placed] /\
    previous = wordLayouts (layout (fun _ => 10)
                              [ViewElementWord (mkWordTiming (js "a") 0 1) 0]) /\
    layout_word placed = js "b" /\ originalIndex placed = 1%Z /\
    Forall (fun l => y l + LINE_HEIGHT <= y placed) previous.
Proof.
  apply (layout_newline_starts_line (fun _ => 10)
           [ViewElementWord (mkWordTiming (js "a") 0 1) 0] [10%N]
           (mkWordTiming (js "b") 1 2) 1).
  left. reflexivity.
Defined.

Local Close Scope Q_scope.

(** ** What the oracle check lets through *)

(** X17. [generateWordTimings] has two outcomes only: it fails with the one
    generic message (the messages thrown inside never reach the caller), or
    it returns the array the oracle answered, unchanged.  And it never
    refuses a well-formed answer: an array in which every element has the
    three fields, and whose first element has no field that hides
    [hasOwnProperty], is returned. *)
Theorem generateWordTimings_outcomes :
  (forall response,
     generateWordTimings response
     = Throw "Failed to generate word timings from Gemini API." \/
     exists items,
       response = Some (JArray items) /\ generateWordTimings response = Ok items) /\
  (forall items,
     malformed (JArray items) = false ->
     match items with
     | first :: _ => hidesHasOwnProperty first = false
     | [] => True
     end ->
     generateWordTimings (Some (JArray items)) = Ok items).
Proof.
  split.
  - intros [v|]; [|left; reflexivity].
    rewrite generateWordTimings_parsed.
    destruct v as [| | | |items|]; try (left; reflexivity).
    destruct items as [|first rest].
    + right. exists []. split; reflexivity.
    + destruct (hasAllFields first && negb (hidesHasOwnProperty first));
        [right; exists (first :: rest); split; reflexivity | left; reflexivity].
  - intros items M H. rewrite generateWordTimings_parsed.
    destruct items as [|first rest]; [reflexivity|].
    cbn [malformed forallb] in M. apply negb_false_iff in M.
    apply andb_true_iff in M. destruct M as [F _].
    rewrite F, H. reflexivity.
Qed.
